(** * omniledger/service/struct.go: the state store and the transaction ordering

    A shallow embedding of [collectionDB] (the bolt bucket bound to an
    authenticated collection), of [tryHash], [Store], [GetValueKind],
    [loadAll], [newCollectionDB], and of the salted ordering
    [sortTransactions] / [sortWithSalt] / [xorTransactions].

    Go's [[]byte] is a [string] (a sequence of 8-bit characters); a nil slice
    and an empty slice are both the empty string.  A Go [error] result is an
    [option error], [None] being [nil].  A run-time panic is an explicit
    outcome. *)

From Stdlib Require Import ZArith NArith List String Ascii Bool Permutation Sorted Lia.
From stdpp Require Import base option gmap strings list fin_maps sorting.

Local Open Scope string_scope.
Local Open Scope list_scope.

(** ** Bytes *)

Abbreviation bytes := string (only parsing).

(** [make([]byte, n)]: [n] zero bytes. *)
Fixpoint make_bytes (n : nat) : bytes :=
  match n with
  | O => EmptyString
  | S n' => String Ascii.zero (make_bytes n')
  end.

(** [bytes.Compare]: lexicographic comparison of unsigned bytes; -1, 0 or 1. *)
Definition bytes_Compare (a b : bytes) : Z :=
  match String.compare a b with
  | Lt => (-1)%Z
  | Eq => 0%Z
  | Gt => 1%Z
  end.

(** A nil slice read back as a byte sequence. *)
Definition from_nil (o : option bytes) : bytes := default EmptyString o.

(** ** Errors and outcomes *)

Inductive error : Type :=
| ErrDuplicateKey                      (* collection: Add on a present key *)
| ErrKeyNotFound                       (* collection: Remove on an absent key *)
| ErrNotFound                          (* collection: no values, the key is absent *)
| ErrBucketNameRequired                (* bolt *)
| ErrBucketExists                      (* bolt *)
| ErrKeyRequired                       (* bolt: blank key *)
| ErrKeyTooLarge                       (* bolt *)
| ErrValueTooLarge                     (* bolt *)
| errors_New (msg : string)            (* errors.New *)
| fmt_Errorf (msg : string) (cause : error)
| network_error (msg : string).        (* network.Marshal / network.Unmarshal *)

(** What a call does: it returns, or the goroutine panics. *)
Inductive outcome (A : Type) : Type :=
| Return (a : A)
| Panic (msg : string).
Arguments Return {A} a.
Arguments Panic {A} msg.

(** ** Transaction model *)

Inductive Action : Type := Create | Update | Remove.

(** Modelled from the spec: [darc.Signature] (package darc is not part of the
    sources at hand): a (signer-identity, signature-bytes) pair, opaque to the
    store. *)
Record darc_Signature : Type := {
  Signer : bytes;
  SignatureBytes : bytes
}.

Record Transaction : Type := {
  TxAction : Action;
  Key : bytes;
  Kind : bytes;
  Value : bytes;
  Valid : bool;
  Signatures : list darc_Signature
}.

(** ** The authenticated collection *)

(** A stored value as the collection hands it back: an [interface{}] that is a
    [[]byte] or something else. *)
Inductive iface : Type :=
| IBytes (b : bytes)
| IOther (dyn : string).

(** Modelled from the spec: the Authenticated Collection (package collection
    is not part of the sources at hand).  It maps a key to the ordered list
    of its stored values; its root digest is a function of the contents only.
    The digest is kept symbolic: two collections have the same root exactly
    when they have the same contents. *)
Abbreviation Collection := (gmap string (list iface)) (only parsing).

Inductive Digest : Type :=
| MerkleRoot (contents : gmap string (list iface)).

(** Modelled from the spec: the insertion policy of the collection's [Add].
    Section 4.1 leaves it to the implementation whether [Add] on a present
    key fails with a duplicate-key error ([StrictAbsence]) or overwrites the
    entry ([Overwrite]).  [StrictAbsence] is the policy [tryHash] is written
    for: it has an error of [Add] to hand back, and it undoes an [Add] with a
    [Remove], which puts the collection back only if the key was not there
    before.  The properties of the store are stated under [StrictAbsence];
    what [Overwrite] changes is stated next to them. *)
Inductive AddPolicy : Type := StrictAbsence | Overwrite.

(** Modelled from the spec: [collection.New]. *)
Definition collection_New : Collection := ∅.

(** Modelled from the spec: [Collection.Add(key, values...)]. *)
Definition coll_Add (pol : AddPolicy) (key : bytes) (values : list iface)
    (c : Collection) : Collection * option error :=
  match c !! key with
  | Some _ =>
      match pol with
      | StrictAbsence => (c, Some ErrDuplicateKey)
      | Overwrite => (<[key := values]> c, None)
      end
  | None => (<[key := values]> c, None)
  end.

(** Modelled from the spec: [Collection.Remove(key)]. *)
Definition coll_Remove (key : bytes) (c : Collection) : Collection * option error :=
  match c !! key with
  | Some _ => (delete key c, None)
  | None => (c, Some ErrKeyNotFound)
  end.

(** Modelled from the spec: [Collection.GetRoot]. *)
Definition coll_GetRoot (c : Collection) : Digest := MerkleRoot c.

(** Modelled from the spec: the proof object of [Collection.Get(key).Record()],
    a membership proof carrying the stored values or a non-membership proof. *)
Record Proof : Type := {
  proof_key : bytes;
  proof_match : option (list iface)
}.

Definition coll_Record (key : bytes) (c : Collection) : Proof * option error :=
  ({| proof_key := key; proof_match := c !! key |}, None).

(** Modelled from the spec: [Record.Values()], not-found when the proof is a
    non-membership proof. *)
Definition proof_Values (p : Proof) : list iface * option error :=
  match proof_match p with
  | Some vs => (vs, None)
  | None => ([], Some ErrNotFound)
  end.

(** ** The durable bucket (bolt) *)

(** Modelled from the spec: the Durable Bucket contract (bolt is an external
    library): byte keys to byte values, [put] that may fail, [get], and
    cursor iteration in key order.  A database is a finite map from bucket
    names to buckets. *)
Abbreviation Bucket := (gmap string string) (only parsing).
Abbreviation DB := (gmap string (gmap string string)) (only parsing).

Definition MaxKeySize : N := 32768.
Definition MaxValueSize : N := 2147483646.

(** [Bucket.Put]: rejects a blank key, an oversized key, an oversized value;
    otherwise sets (overwrites) the value. *)
Definition bucket_Put (key value : bytes) (b : Bucket) : Bucket * option error :=
  if Nat.eqb (String.length key) 0 then (b, Some ErrKeyRequired)
  else if N.ltb MaxKeySize (N.of_nat (String.length key)) then (b, Some ErrKeyTooLarge)
  else if N.ltb MaxValueSize (N.of_nat (String.length value)) then (b, Some ErrValueTooLarge)
  else (<[key := value]> b, None).

(** [Bucket.Get]: nil when the key is absent. *)
Definition bucket_Get (key : bytes) (b : Bucket) : option bytes := b !! key.

(** [Tx.CreateBucket]. *)
Definition tx_CreateBucket (name : bytes) (tx : DB) : DB * option error :=
  if Nat.eqb (String.length name) 0 then (tx, Some ErrBucketNameRequired)
  else match tx !! name with
       | Some _ => (tx, Some ErrBucketExists)
       | None => (<[name := ∅]> tx, None)
       end.

(** [Tx.Bucket]: nil when there is no such bucket. *)
Definition tx_Bucket (name : bytes) (tx : DB) : option Bucket := tx !! name.

(** [DB.Update]: runs the closure in a read-write transaction; commits when
    it returns nil and rolls back when it returns an error.  The commit
    itself is taken to succeed. *)
Definition db_Update (f : DB -> outcome (DB * option error)) (db : DB)
    : outcome (DB * option error) :=
  match f db with
  | Panic msg => Panic msg
  | Return (tx, None) => Return (tx, None)
  | Return (_, Some err) => Return (db, Some err)
  end.

(** The order of a cursor: keys ascending, byte-wise. *)
Definition key_le (p q : string * string) : Prop := String.leb p.1 q.1 = true.

#[global] Instance key_le_dec (p q : string * string) : Decision (key_le p q).
Proof. unfold key_le. apply _. Defined.

(** [Bucket.Cursor] with [First]/[Next]: every pair of the bucket, in key order. *)
Definition bucket_Cursor (b : Bucket) : list (string * string) :=
  merge_sort key_le (map_to_list b).

(** ** collectionDB *)

Record collectionDB : Type := {
  db : gmap string (gmap string string);
  bucketName : bytes;
  coll : gmap string (list iface)
}.

Definition with_coll (c : collectionDB) (m : Collection) : collectionDB :=
  {| db := db c; bucketName := bucketName c; coll := m |}.

Definition with_db (c : collectionDB) (d : DB) : collectionDB :=
  {| db := d; bucketName := bucketName c; coll := coll c |}.

Section Store.

(** The insertion policy of the collection the store is linked with. *)
Variable pol : AddPolicy.

(** One round of the cursor loop of [loadAll]: the error of [Add] is dropped. *)
Definition loadAll_step (b : Bucket) (m : Collection) (kv : string * string) : Collection :=
  let sig := bucket_Get (kv.1 ++ "sig") b in
  (coll_Add pol kv.1 [IBytes kv.2; IBytes (from_nil sig)] m).1.

(** [loadAll]: panics on a nil bucket (the cursor is taken from it). *)
Definition loadAll (c : collectionDB) : outcome collectionDB :=
  match tx_Bucket (bucketName c) (db c) with
  | None => Panic "invalid memory address or nil pointer dereference"
  | Some b => Return (with_coll c (fold_left (loadAll_step b) (bucket_Cursor b) (coll c)))
  end.

(** The closure [newCollectionDB] hands to [DB.Update]. *)
Definition create_bucket_tx (name : bytes) (tx : DB) : outcome (DB * option error) :=
  match tx_CreateBucket name tx with
  | (_, Some err) => Return (tx, Some (fmt_Errorf "create bucket: " err))
  | (tx', None) => Return (tx', None)
  end.

(** [newCollectionDB]: the result of [Update] is not looked at. *)
Definition newCollectionDB (d : DB) (name : bytes) : outcome collectionDB :=
  let c := {| db := d; bucketName := name; coll := collection_New |} in
  match db_Update (create_bucket_tx name) (db c) with
  | Panic msg => Panic msg
  | Return (d', _) => loadAll (with_db c d')
  end.

(** The key under which [Store] writes the kind: [make([]byte, len(Key)+4)],
    the key copied to its front, then "kind" appended. *)
Definition keykind (key : bytes) : bytes :=
  key ++ make_bytes 4 ++ "kind".

(** The closure [Store] hands to [DB.Update]. *)
Definition store_tx (name : bytes) (t : Transaction) (tx : DB) : outcome (DB * option error) :=
  match tx_Bucket name tx with
  | None => Panic "invalid memory address or nil pointer dereference"
  | Some bucket =>
      match bucket_Put (Key t) (Value t) bucket with
      | (_, Some err) => Return (tx, Some err)
      | (b1, None) =>
          match bucket_Put (keykind (Key t)) (Kind t) b1 with
          | (_, Some err) => Return (tx, Some err)
          | (b2, None) => Return (<[name := b2]> tx, None)
          end
      end
  end.

(** [Store]: first the collection (the error of [Add] is dropped), then the
    bucket; the error returned is the one of [Update]. *)
Definition Store (t : Transaction) (c : collectionDB) : outcome (collectionDB * option error) :=
  let m := (coll_Add pol (Key t) [IBytes (Value t); IBytes (Kind t)] (coll c)).1 in
  match db_Update (store_tx (bucketName c) t) (db c) with
  | Panic msg => Panic msg
  | Return (d', err) => Return ({| db := d'; bucketName := bucketName c; coll := m |}, err)
  end.

(** [GetValueKind]: the named results [(value, kind, err)].  [hashes[1]] is
    read after the only length test [len(hashes) == 0]. *)
Definition GetValueKind (c : collectionDB) (key : bytes)
    : outcome (bytes * bytes * option error) :=
  match coll_Record key (coll c) with
  | (_, Some err) => Return (EmptyString, EmptyString, Some err)
  | (proof, None) =>
      match proof_Values proof with
      | (_, Some err) => Return (EmptyString, EmptyString, Some err)
      | (hashes, None) =>
          if Nat.eqb (length hashes) 0 then
            Return (EmptyString, EmptyString, Some (errors_New "nothing stored under that key"))
          else
            match hashes !! 0%nat with
            | None => Panic "index out of range"
            | Some (IOther _) =>
                Return (EmptyString, EmptyString, Some (errors_New "the value is not of type []byte"))
            | Some (IBytes value) =>
                match hashes !! 1%nat with
                | None => Panic "index out of range"
                | Some (IOther _) =>
                    Return (value, EmptyString, Some (errors_New "the signature is not of type []byte"))
                | Some (IBytes kind) => Return (value, kind, None)
                end
            end
      end
  end.

(** [RootHash]. *)
Definition RootHash (c : collectionDB) : Digest := coll_GetRoot (coll c).

(** The loop of [tryHash]: [Add] each pair; on an error stop with it;
    otherwise push the deferred [Remove] of the key.  [defers] has the most
    recently deferred key first. *)
Fixpoint tryHash_loop (ts : list Transaction) (m : Collection) (defers : list bytes)
    : Collection * list bytes * option error :=
  match ts with
  | [] => (m, defers, None)
  | t :: ts' =>
      match coll_Add pol (Key t) [IBytes (Value t); IBytes (Kind t)] m with
      | (m', Some err) => (m', defers, Some err)
      | (m', None) => tryHash_loop ts' m' (Key t :: defers)
      end
  end.

(** The deferred calls, run last-in first-out on the way out: each removes
    its key; when the removal fails the results become [(nil, err)]. *)
Fixpoint run_defers (defers : list bytes) (m : Collection) (mr : option Digest)
    (rerr : option error) : Collection * option Digest * option error :=
  match defers with
  | [] => (m, mr, rerr)
  | k :: rest =>
      match coll_Remove k m with
      | (m', Some err) => run_defers rest m' None (Some err)
      | (m', None) => run_defers rest m' mr rerr
      end
  end.

(** [tryHash]: the named results [(mr, rerr)] and the collection afterwards. *)
Definition tryHash (ts : list Transaction) (c : collectionDB)
    : collectionDB * option Digest * option error :=
  match tryHash_loop ts (coll c) [] with
  | (m, defers, Some err) =>
      let '(m', mr, rerr) := run_defers defers m None (Some err) in
      (with_coll c m', mr, rerr)
  | (m, defers, None) =>
      let '(m', mr, rerr) := run_defers defers m (Some (coll_GetRoot m)) None in
      (with_coll c m', mr, rerr)
  end.

End Store.

(** ** The salted ordering of a batch *)

(** [sha256.Size]. *)
Definition sha256_Size : nat := 32.

(** [crypto/sha256]: [Sum256] returns a [[32]byte]. *)
Record Hash : Type := {
  Sum256 : bytes -> bytes;
  Sum256_length : forall b, String.length (Sum256 b) = sha256_Size
}.

(** What [sort.Slice] asks of [less]: a strict ordering that is transitive,
    also on the elements it does not order. *)
Definition transitive_ordering {A : Type} (less : A -> A -> bool) : Prop :=
  (forall a, less a a = false) /\
  (forall a b c, less a b = true -> less b c = true -> less a c = true) /\
  (forall a b c, less a b = false -> less b c = false -> less a c = false).

(** [sort.Slice]: the slice is permuted in place so that no element is less
    than one before it; equal elements may end in any order (the sort is not
    stable). *)
Record Sorter : Type := {
  sort_Slice : (bytes -> bytes -> bool) -> list bytes -> list bytes;
  sort_Slice_perm : forall less l, Permutation (sort_Slice less l) l;
  sort_Slice_sorted : forall less l,
    transitive_ordering less ->
    StronglySorted (fun a b => less b a = false) (sort_Slice less l)
}.

(** What [network.Unmarshal] hands back: a registered message, which is a
    [*Transaction] or of another type. *)
Inductive Message : Type :=
| MsgTransaction (t : Transaction)
| MsgOther (type_name : string).

Inductive result (A : Type) : Type :=
| Ok (a : A)
| Err (e : error).
Arguments Ok {A} a.
Arguments Err {A} e.

(** [network.Marshal] and [network.Unmarshal]. *)
Record Codec : Type := {
  Marshal : Transaction -> result bytes;
  Unmarshal : bytes -> result Message
}.

(** [a ^ b] on bytes. *)
Definition xor_ascii (a b : ascii) : ascii :=
  match a, b with
  | Ascii a0 a1 a2 a3 a4 a5 a6 a7, Ascii b0 b1 b2 b3 b4 b5 b6 b7 =>
      Ascii (xorb a0 b0) (xorb a1 b1) (xorb a2 b2) (xorb a3 b3)
            (xorb a4 b4) (xorb a5 b5) (xorb a6 b6) (xorb a7 b7)
  end.

(** [for i := range result { result[i] = result[i] ^ hs[i] }]; [hs] is as
    long as [result], both being 32 bytes. *)
Fixpoint xor_bytes (result hs : bytes) : bytes :=
  match result, hs with
  | String r result', String h hs' => String (xor_ascii r h) (xor_bytes result' hs')
  | _, _ => result
  end.

(** The unsigned big-endian number a byte string denotes. *)
Fixpoint be_value_from (acc : N) (s : bytes) : N :=
  match s with
  | EmptyString => acc
  | String c s' => be_value_from (acc * 256 + N_of_ascii c) s'
  end.

Definition be_value (s : bytes) : N := be_value_from 0 s.

Section Ordering.

Variable H : Hash.
Variable S : Sorter.
Variable C : Codec.

(** [xorTransactions]. *)
Definition xorTransactions (ts : list bytes) : bytes :=
  fold_left (fun result t => xor_bytes result (Sum256 H t)) ts (make_bytes sha256_Size).

(** The closure [less] of [sortWithSalt], on the elements at [i] and [j]. *)
Definition salted_less (salt : bytes) (a b : bytes) : bool :=
  Z.eqb (bytes_Compare (Sum256 H (salt ++ a)) (Sum256 H (salt ++ b))) (-1).

(** [sortWithSalt]. *)
Definition sortWithSalt (ts : list bytes) (salt : bytes) : list bytes :=
  sort_Slice S (salted_less salt) ts.

(** The first loop of [sortTransactions]: marshal each, stop at the first error. *)
Fixpoint marshal_all (ts : list Transaction) : result (list bytes) :=
  match ts with
  | [] => Ok []
  | t :: ts' =>
      match Marshal C t with
      | Err e => Err e
      | Ok b =>
          match marshal_all ts' with
          | Err e => Err e
          | Ok bs => Ok (b :: bs)
          end
      end
  end.

(** The second loop: unmarshal each, stop at the first error or at the first
    message that is not a [*Transaction]. *)
Fixpoint unmarshal_all (bs : list bytes) : result (list Transaction) :=
  match bs with
  | [] => Ok []
  | b :: bs' =>
      match Unmarshal C b with
      | Err e => Err e
      | Ok (MsgOther _) => Err (errors_New "Data of wrong type")
      | Ok (MsgTransaction t) =>
          match unmarshal_all bs' with
          | Err e => Err e
          | Ok sortedTs => Ok (t :: sortedTs)
          end
      end
  end.

(** [sortTransactions]: the slice [ts] afterwards and the error returned.
    [ts] is written only by the last loop, which copies [sortedTs] (as long
    as [ts]) over it. *)
Definition sortTransactions (ts : list Transaction) : list Transaction * option error :=
  match marshal_all ts with
  | Err e => (ts, Some e)
  | Ok bs =>
      let salt := xorTransactions bs in
      let bs' := sortWithSalt bs salt in
      match unmarshal_all bs' with
      | Err e => (ts, Some e)
      | Ok sortedTs => (sortedTs, None)
      end
  end.

End Ordering.

(** Following the spec's words: the salt is the bitwise XOR of the hashes of
    all serialized transactions. *)
Definition salt_spec (H : Hash) (bs : list bytes) : bytes :=
  fold_right xor_bytes (make_bytes sha256_Size) (map (Sum256 H) bs).

(** [insertionSort_func], which [sort.Slice] runs on a short slice: the
    element at [i] moves left while it is less than its left neighbour.
    [left] is the part before it, the nearest neighbour first. *)
Fixpoint insert_left (less : bytes -> bytes -> bool) (x : bytes) (left : list bytes)
    : list bytes :=
  match left with
  | [] => [x]
  | y :: left' => if less x y then y :: insert_left less x left' else x :: y :: left'
  end.

Definition insertionSort (less : bytes -> bytes -> bool) (l : list bytes) : list bytes :=
  rev (fold_left (fun left x => insert_left less x left) l []).


(** ** Observations and sample data *)

(** [undoes defers m m0]: running the deferred removals on [m] gives [m0]
    back and none of them fails. *)
Definition undoes (defers : list string) (m m0 : gmap string (list iface)) : Prop :=
  forall mr rerr, run_defers defers m mr rerr = (m0, mr, rerr).

(** Sequencing of calls that may panic. *)
Definition and_then {A B : Type} (o : outcome A) (f : A -> outcome B) : outcome B :=
  match o with
  | Return a => f a
  | Panic msg => Panic msg
  end.

(** The error a call returned, the state left aside. *)
Definition returned_error {A : Type} (o : outcome (A * option error)) : outcome (option error) :=
  and_then o (fun r => Return r.2).

(** [Bucket.Put] accepts this key and this value. *)
Definition put_ok (key value : bytes) : bool :=
  negb (Nat.eqb (String.length key) 0)
  && negb (N.ltb MaxKeySize (N.of_nat (String.length key)))
  && negb (N.ltb MaxValueSize (N.of_nat (String.length value))).

(** The entry the bucket holds for a key, as [Store] wrote it: the value
    under the key and the kind under [keykind]. *)
Definition bucket_entry (key : bytes) (b : Bucket) : option (list iface) :=
  match b !! key, b !! keykind key with
  | Some v, Some k => Some [IBytes v; IBytes k]
  | _, _ => None
  end.

(** The storage key the documentation of [Transaction] announces: Kind ':' Key. *)
Definition documented_key (t : Transaction) : bytes := Kind t ++ ":" ++ Key t.

Definition mkTx (kind key value : bytes) : Transaction :=
  {| TxAction := Update; Key := key; Kind := kind; Value := value;
     Valid := false; Signatures := [] |}.

Definition tx_a_x_1 : Transaction := mkTx "a" "x" "1".
Definition tx_a_x_2 : Transaction := mkTx "a" "x" "2".
Definition tx_b_x_3 : Transaction := mkTx "b" "x" "3".
Definition tx_blank_key : Transaction := mkTx "a" "" "1".

(** An empty database file. *)
Definition empty_db : DB := ∅.

(** A store that was just opened on an empty database. *)
Definition opened_store : collectionDB :=
  {| db := {["omniledger" := ∅]}; bucketName := "omniledger"; coll := ∅ |}.


(** The store after [Store] of [tx_a_x_1] on [opened_store]. *)
Definition stored_x1 : collectionDB :=
  {| db := {["omniledger" := {["x" := "1"; keykind "x" := "a"]}]};
     bucketName := "omniledger";
     coll := {["x" := [IBytes "1"; IBytes "a"]]} |}.

(** No two different serialized transactions of the batch have the same
    salted hash. *)
Definition collision_free (H : Hash) (salt : bytes) (bs : list bytes) : bool :=
  forallb (fun a =>
    forallb (fun b =>
      implb (String.eqb (Sum256 H (salt ++ a)) (Sum256 H (salt ++ b))) (String.eqb a b))
      bs) bs.

(** The first [n] bytes of [s], zero-padded. *)
Fixpoint fit (n : nat) (s : bytes) : bytes :=
  match n with
  | O => EmptyString
  | S n' =>
      match s with
      | EmptyString => String Ascii.zero (fit n' EmptyString)
      | String c s' => String c (fit n' s')
      end
  end.

Fixpoint rev_bytes_onto (acc s : bytes) : bytes :=
  match s with
  | EmptyString => acc
  | String c s' => rev_bytes_onto (String c acc) s'
  end.

(** A 32-byte digest to run the examples with: the last bytes of the input,
    the last one first. *)
Definition tail_digest (b : bytes) : bytes := fit sha256_Size (rev_bytes_onto EmptyString b).

(** A codec to run the examples with: a transaction travels as its key; a
    blank key cannot be marshalled, "bad" cannot be unmarshalled and "other"
    unmarshals to a message of another type. *)
Definition demo_Marshal (t : Transaction) : result bytes :=
  if String.eqb (Key t) "" then Err (network_error "cannot marshal") else Ok (Key t).

Definition demo_Unmarshal (b : bytes) : result Message :=
  if String.eqb b "bad" then Err (network_error "cannot unmarshal")
  else if String.eqb b "other" then Ok (MsgOther "darc.Signature")
  else Ok (MsgTransaction (mkTx "" b "")).

Definition demo_codec : Codec :=
  {| Marshal := demo_Marshal; Unmarshal := demo_Unmarshal |}.

Definition T1 : Transaction := mkTx "" "t1" "".
Definition T2 : Transaction := mkTx "" "t2" "".
Definition T3 : Transaction := mkTx "" "t3" "".

(** ** Batches and the stores a program can reach *)

(** The collection with the pair of every transaction of a batch put in, in
    order. *)
Definition add_all (ts : list Transaction) (m : Collection) : Collection :=
  fold_left (fun m t => <[Key t := [IBytes (Value t); IBytes (Kind t)]]> m) ts m.

Section Batches.

Variable pol : AddPolicy.

(** [Store] called on each transaction of a batch in turn, whatever error
    each call returns. *)
Fixpoint store_all (ts : list Transaction) (c : collectionDB) : outcome collectionDB :=
  match ts with
  | [] => Return c
  | t :: ts' => and_then (Store pol t c) (fun r => store_all ts' r.1)
  end.

(** The stores a program gets from [newCollectionDB] and then works on with
    [Store] and [tryHash]. *)
Inductive reachable : collectionDB -> Prop :=
| reach_open d name c :
    newCollectionDB pol d name = Return c -> reachable c
| reach_Store t c c' err :
    reachable c -> Store pol t c = Return (c', err) -> reachable c'
| reach_tryHash ts c :
    reachable c -> reachable (tryHash pol ts c).1.1.

End Batches.

(** Every entry of the collection is a pair of byte sequences. *)
Definition pairs_only (m : Collection) : Prop :=
  forall key vs, m !! key = Some vs -> exists v k, vs = [IBytes v; IBytes k].

(** A transaction whose key is the key of the kind entry of "x". *)
Definition tx_on_kind_of_x : Transaction := mkTx "b" (keykind "x") "3".

(** The store after [Store] of [tx_on_kind_of_x] on [stored_x1]. *)
Definition stored_x1_kind : collectionDB :=
  {| db := {["omniledger" :=
              {["x" := "1"; keykind "x" := "3"; keykind (keykind "x") := "b"]}]};
     bucketName := "omniledger";
     coll := {["x" := [IBytes "1"; IBytes "a"]; keykind "x" := [IBytes "3"; IBytes "b"]]} |}.

(** A batch the collection can take whole: no key twice, no key already
    stored. *)
Definition fresh_batch (ts : list Transaction) (m : Collection) : Prop :=
  NoDup (map Key ts) /\ forall t, In t ts -> m !! Key t = None.

Definition tx_a_y_2 : Transaction := mkTx "a" "y" "2".

(** A codec gives every transaction of the batch back: each one marshals,
    and its bytes unmarshal to it. *)
Definition round_trips (C : Codec) (ts : list Transaction) : Prop :=
  forall t, In t ts ->
    exists b, Marshal C t = Ok b /\ Unmarshal C b = Ok (MsgTransaction t).

(** [Action] is an [int]; the constants count from [iota + 1]. *)
Definition Action_value (a : Action) : Z :=
  match a with
  | Create => 1
  | Update => 2
  | Remove => 3
  end.

(** [Action.String], on any [int]. *)
Definition Action_String (a : Z) : string :=
  if Z.eqb a (Action_value Create) then "create"
  else if Z.eqb a (Action_value Update) then "update"
  else if Z.eqb a (Action_value Remove) then "remove"
  else "invalid action".

(** ** eventlog: the client's makeTx *)

(** The transaction types of the service, with the fields [makeTx] sets. *)
Record ObjectID : Type := {
  DarcID : bytes;
  InstanceID : bytes
}.

Record Argument : Type := {
  Name : string;
  ArgValue : bytes
}.

Record Spawn : Type := {
  Args : list Argument;
  ContractID : string
}.

Record Instruction : Type := {
  InstrObjectID : ObjectID;
  Nonce : bytes;
  Index : Z;
  Length : Z;
  InstrSpawn : option Spawn;
  InstrSignatures : list darc_Signature
}.

Record ClientTransaction : Type := {
  Instructions : list Instruction
}.

(** What [makeTx] calls and does not define: the events and their protobuf
    encoding, the nonce generator (a state handed from draw to draw), the
    signers with their identity and their signing, the darc request of an
    instruction with its hash, and the contract name of the package. *)
Record EventLogEnv : Type := {
  Event : Type;
  darc_Signer : Type;
  Rand : Type;
  darc_Request : Type;
  protobuf_Encode : Event -> result bytes;
  GenNonce : Rand -> bytes * Rand;
  Signer_Identity : darc_Signer -> bytes;
  Signer_Sign : darc_Signer -> bytes -> result bytes;
  ToDarcRequest : Instruction -> result darc_Request;
  Request_Hash : darc_Request -> bytes;
  contractName : string
}.

Definition set_Signatures (instr : Instruction) (sigs : list darc_Signature) : Instruction :=
  {| InstrObjectID := InstrObjectID instr; Nonce := Nonce instr; Index := Index instr;
     Length := Length instr; InstrSpawn := InstrSpawn instr; InstrSignatures := sigs |}.

Section MakeTx.

Variable E : EventLogEnv.

(** The first loop of [makeTx], from index [i] on: encode the event, then
    draw the instance id and fill the instruction in; the first encoding
    error ends it. *)
Fixpoint make_instructions (msgs : list (Event E)) (i : nat) (len : nat)
    (darcID instrNonce : bytes) (sigs : list darc_Signature) (r : Rand E)
    : result (list Instruction) * Rand E :=
  match msgs with
  | [] => (Ok [], r)
  | msg :: msgs' =>
      match protobuf_Encode E msg with
      | Err err => (Err err, r)
      | Ok eventBuf =>
          let arg := {| Name := "event"; ArgValue := eventBuf |} in
          let '(instanceID, r1) := GenNonce E r in
          let instr :=
            {| InstrObjectID := {| DarcID := darcID; InstanceID := instanceID |};
               Nonce := instrNonce;
               Index := Z.of_nat i;
               Length := Z.of_nat len;
               InstrSpawn := Some {| Args := [arg]; ContractID := contractName E |};
               InstrSignatures := sigs |} in
          match make_instructions msgs' (S i) len darcID instrNonce sigs r1 with
          | (Err err, r2) => (Err err, r2)
          | (Ok instrs, r2) => (Ok (instr :: instrs), r2)
          end
      end
  end.

(** The inner loop of the second loop: one signature per signer, on the hash
    of the darc request of the instruction as it stands; the first error
    ends it. *)
Fixpoint sign_instruction (signers : list (darc_Signer E)) (instr : Instruction)
    : result (list darc_Signature) :=
  match signers with
  | [] => Ok []
  | signer :: signers' =>
      match ToDarcRequest E instr with
      | Err err => Err err
      | Ok dr =>
          match Signer_Sign E signer (Request_Hash E dr) with
          | Err err => Err err
          | Ok sig =>
              match sign_instruction signers' instr with
              | Err err => Err err
              | Ok darcSigs =>
                  Ok ({| Signer := Signer_Identity E signer; SignatureBytes := sig |}
                      :: darcSigs)
              end
          end
      end
  end.

(** The second loop: each instruction gets its signatures in place of the
    ones it was built with. *)
Fixpoint sign_instructions (signers : list (darc_Signer E)) (instrs : list Instruction)
    : result (list Instruction) :=
  match instrs with
  | [] => Ok []
  | instr :: instrs' =>
      match sign_instruction signers instr with
      | Err err => Err err
      | Ok darcSigs =>
          match sign_instructions signers instrs' with
          | Err err => Err err
          | Ok signed => Ok (set_Signatures instr darcSigs :: signed)
          end
      end
  end.

(** The signatures an instruction is built with: the identity of each
    signer, no signature bytes yet. *)
Definition identity_sigs (signers : list (darc_Signer E)) : list darc_Signature :=
  map (fun x => {| Signer := Signer_Identity E x; SignatureBytes := EmptyString |}) signers.

(** [makeTx]: the transaction or the error, and the nonce generator
    afterwards. *)
Definition makeTx (msgs : list (Event E)) (darcID : bytes) (signers : list (darc_Signer E))
    (r : Rand E) : result ClientTransaction * Rand E :=
  let sigs := identity_sigs signers in
  let '(instrNonce, r1) := GenNonce E r in
  match make_instructions msgs 0 (length msgs) darcID instrNonce sigs r1 with
  | (Err err, r2) => (Err err, r2)
  | (Ok instrs, r2) =>
      match sign_instructions signers instrs with
      | Err err => (Err err, r2)
      | Ok signed => (Ok {| Instructions := signed |}, r2)
      end
  end.

End MakeTx.

(** An environment to run [makeTx] in: events are strings and encode to
    themselves, the blank one excepted; the nonces count up; a signature is
    the signer's name before the hash. *)
Definition demo_env : EventLogEnv :=
  {| Event := string;
     darc_Signer := string;
     Rand := nat;
     darc_Request := string;
     protobuf_Encode := fun ev => if String.eqb ev "" then Err (network_error "cannot encode")
                                  else Ok ev;
     GenNonce := fun n => (make_bytes n, S n);
     Signer_Identity := fun s => s;
     Signer_Sign := fun s h => Ok (String.append s h);
     ToDarcRequest := fun instr => Ok (InstanceID (InstrObjectID instr));
     Request_Hash := fun dr => dr;
     contractName := "eventlog" |}.

(** The nonce generator after [n] draws. *)
Fixpoint after_draws (E : EventLogEnv) (n : nat) (r : Rand E) : Rand E :=
  match n with
  | O => r
  | S n' => (GenNonce E (after_draws E n' r)).2
  end.

(** Two events logged by two signers, in [demo_env]. *)
Definition demo_tx : ClientTransaction :=
  match (makeTx demo_env ["e1"; "e2"] "darc" ["alice"; "bob"] 1%nat).1 with
  | Ok tx => tx
  | Err _ => {| Instructions := [] |}
  end.

(** * Properties *)

(** ** The collection *)

Lemma coll_Add_absent pol key values (m : gmap string (list iface)) :
  m !! key = None -> coll_Add pol key values m = (<[key := values]> m, None).
Proof. intros Hk. unfold coll_Add. now rewrite Hk. Qed.

Lemma coll_Add_strict_present key values vs (m : gmap string (list iface)) :
  m !! key = Some vs -> coll_Add StrictAbsence key values m = (m, Some ErrDuplicateKey).
Proof. intros Hk. unfold coll_Add. now rewrite Hk. Qed.

Lemma coll_Add_overwrite key values (m : gmap string (list iface)) :
  coll_Add Overwrite key values m = (<[key := values]> m, None).
Proof. unfold coll_Add. now destruct (m !! key). Qed.

Lemma coll_Add_error pol key values (m m' : gmap string (list iface)) e :
  coll_Add pol key values m = (m', Some e) ->
  pol = StrictAbsence /\ m' = m /\ e = ErrDuplicateKey /\ is_Some (m !! key).
Proof.
  unfold coll_Add. destruct (m !! key) eqn:Hk; [destruct pol|]; intros Heq;
    inversion Heq; subst; eauto.
Qed.

Lemma coll_Remove_added key values (m : gmap string (list iface)) :
  m !! key = None -> coll_Remove key (<[key := values]> m) = (m, None).
Proof.
  intros Hk. unfold coll_Remove. rewrite lookup_insert_eq.
  now rewrite delete_insert_id.
Qed.

(** ** tryHash *)

Lemma undoes_nil (m : gmap string (list iface)) : undoes [] m m.
Proof. now intros mr rerr. Qed.

Lemma undoes_push key values defers (m m0 : gmap string (list iface)) :
  m !! key = None -> undoes defers m m0 ->
  undoes (key :: defers) (<[key := values]> m) m0.
Proof.
  intros Hk Hu mr rerr. simpl. rewrite coll_Remove_added by exact Hk. apply Hu.
Qed.

Lemma tryHash_loop_strict_undoes ts :
  forall (m m0 : gmap string (list iface)) defers,
    undoes defers m m0 ->
    undoes (tryHash_loop StrictAbsence ts m defers).1.2
           (tryHash_loop StrictAbsence ts m defers).1.1 m0.
Proof.
  induction ts as [|t ts IH]; intros m m0 defers Hu; simpl; [exact Hu|].
  destruct (m !! Key t) as [vs|] eqn:Hk.
  - rewrite (coll_Add_strict_present _ _ vs) by exact Hk. exact Hu.
  - rewrite coll_Add_absent by exact Hk. apply IH. now apply undoes_push.
Qed.

(** What [tryHash] returns under the strict policy: the root of the
    collection with the whole batch added, or nil and the error of [Add]. *)
Lemma tryHash_strict_result ts c :
  match tryHash_loop StrictAbsence ts (coll c) [] with
  | (m, _, None) => tryHash StrictAbsence ts c = (c, Some (MerkleRoot m), None)
  | (_, _, Some err) => tryHash StrictAbsence ts c = (c, None, Some err)
  end.
Proof.
  pose proof (tryHash_loop_strict_undoes ts (coll c) (coll c) [] (undoes_nil _)) as Hu.
  unfold tryHash.
  destruct (tryHash_loop StrictAbsence ts (coll c) []) as [[m defers] [err|]];
    simpl in Hu; rewrite Hu; destruct c; reflexivity.
Qed.

(** C1. Under the collection's strict-absence policy, whatever the batch and
    the starting state, and whether [tryHash] returns a root or an error,
    the store after the call is the store before it: same collection, hence
    the same root hash and the same key set, and the bucket is not touched. *)
Theorem tryHash_restores_collection (ts : list Transaction) (c : collectionDB) :
  (tryHash StrictAbsence ts c).1.1 = c /\
  RootHash (tryHash StrictAbsence ts c).1.1 = RootHash c /\
  dom (coll (tryHash StrictAbsence ts c).1.1) = dom (coll c) /\
  ((exists root, tryHash StrictAbsence ts c = (c, Some root, None)) \/
   (exists err, tryHash StrictAbsence ts c = (c, None, Some err))).
Proof.
  pose proof (tryHash_strict_result ts c) as Hres.
  destruct (tryHash_loop StrictAbsence ts (coll c) []) as [[m defers] [err|]];
    rewrite Hres; simpl; eauto 6.
Qed.

(** [tryHash] with an overwriting [Add]: a batch key that was already stored
    is removed by the deferred [Remove]. *)
Example tryHash_overwrite_drops_present_key :
  let c := with_coll opened_store {["x" := [IBytes "1"; IBytes "a"]]} in
  coll (tryHash Overwrite [tx_a_x_2] c).1.1 = ∅.
Proof. vm_compute. reflexivity. Qed.

(** ** The bucket *)

Lemma bucket_Put_ok key value (b : gmap string string) :
  put_ok key value = true -> bucket_Put key value b = (<[key := value]> b, None).
Proof.
  unfold put_ok, bucket_Put. intros Hok.
  apply andb_true_iff in Hok as [Hok Hv]. apply andb_true_iff in Hok as [Hk Hl].
  apply negb_true_iff in Hk, Hl, Hv. now rewrite Hk, Hl, Hv.
Qed.

Lemma bucket_Put_error key value (b b' : gmap string string) e :
  bucket_Put key value b = (b', Some e) -> put_ok key value = false /\ b' = b.
Proof.
  unfold put_ok, bucket_Put.
  destruct (Nat.eqb _ 0); [intros Heq; inversion Heq; auto|].
  destruct (N.ltb MaxKeySize _); [intros Heq; inversion Heq; auto|].
  destruct (N.ltb MaxValueSize _); intros Heq; inversion Heq; auto.
Qed.

Lemma length_append (a b : string) :
  String.length (a ++ b) = (String.length a + String.length b)%nat.
Proof. induction a as [|ch a IH]; simpl; [reflexivity|now rewrite IH]. Qed.

Lemma keykind_neq key : keykind key <> key.
Proof.
  intros Heq. apply (f_equal String.length) in Heq.
  unfold keykind in Heq. rewrite !length_append in Heq. simpl in Heq. lia.
Qed.

(** ** Store *)

(** The collection after [Store] is the collection after [Add], whatever
    the bucket write did, and the storage key is the transaction's own
    [Key]. *)
Lemma Store_coll pol t c c' err :
  Store pol t c = Return (c', err) ->
  coll c' = (coll_Add pol (Key t) [IBytes (Value t); IBytes (Kind t)] (coll c)).1.
Proof.
  unfold Store. destruct (db_Update _ _) as [[d' e']|msg]; [|discriminate].
  intros Heq. inversion Heq; subst. reflexivity.
Qed.

(** The error [Store] returns is the one of the bucket transaction: neither
    the collection nor its insertion policy has a say. *)
Lemma Store_returned_error pol t c :
  returned_error (Store pol t c)
  = returned_error (db_Update (store_tx (bucketName c) t) (db c)).
Proof.
  unfold Store, returned_error, and_then.
  now destruct (db_Update _ _) as [[d' e']|msg].
Qed.

Lemma store_tx_ok name t (d : gmap string (gmap string string)) (b : gmap string string) :
  tx_Bucket name d = Some b ->
  put_ok (Key t) (Value t) = true ->
  put_ok (keykind (Key t)) (Kind t) = true ->
  db_Update (store_tx name t) d
  = Return (<[name := <[keykind (Key t) := Kind t]> (<[Key t := Value t]> b)]> d, None).
Proof.
  intros Hb Hv Hk. unfold db_Update, store_tx. rewrite Hb.
  rewrite bucket_Put_ok by exact Hv. rewrite bucket_Put_ok by exact Hk. reflexivity.
Qed.

Lemma store_tx_failed name t (d : gmap string (gmap string string)) (b : gmap string string) e :
  tx_Bucket name d = Some b ->
  ((bucket_Put (Key t) (Value t) b).2 = Some e \/
   (bucket_Put (Key t) (Value t) b).2 = None /\
   (bucket_Put (keykind (Key t)) (Kind t) (bucket_Put (Key t) (Value t) b).1).2 = Some e) ->
  db_Update (store_tx name t) d = Return (d, Some e).
Proof.
  intros Hb Hfail. unfold db_Update, store_tx. rewrite Hb.
  destruct (bucket_Put (Key t) (Value t) b) as [b1 [e1|]]; simpl in Hfail.
  - destruct Hfail as [Heq|[Heq _]]; [|discriminate]. now inversion Heq.
  - destruct Hfail as [Heq|[_ Heq]]; [discriminate|].
    destruct (bucket_Put (keykind (Key t)) (Kind t) b1) as [b2 [e2|]]; simpl in Heq;
      [now inversion Heq|discriminate].
Qed.

(** C9. When a bucket write inside [Store] fails with [e], [Store] returns
    [e], the database is left as it was, and the collection is the one [Add]
    produced: when the key was absent (or [Add] overwrites) it holds the
    transaction's entry. *)
Theorem Store_failed_write_not_rolled_back pol (t : Transaction) (c : collectionDB)
    (b : gmap string string) (e : error) :
  tx_Bucket (bucketName c) (db c) = Some b ->
  ((bucket_Put (Key t) (Value t) b).2 = Some e \/
   (bucket_Put (Key t) (Value t) b).2 = None /\
   (bucket_Put (keykind (Key t)) (Kind t) (bucket_Put (Key t) (Value t) b).1).2 = Some e) ->
  exists c',
    Store pol t c = Return (c', Some e) /\
    db c' = db c /\
    coll c' = (coll_Add pol (Key t) [IBytes (Value t); IBytes (Kind t)] (coll c)).1 /\
    (coll c !! Key t = None \/ pol = Overwrite ->
     coll c' !! Key t = Some [IBytes (Value t); IBytes (Kind t)]).
Proof.
  intros Hb Hfail.
  eexists. unfold Store. rewrite (store_tx_failed _ _ _ b e Hb Hfail).
  split; [reflexivity|]. simpl. split; [reflexivity|]. split; [reflexivity|].
  intros [Habs| ->].
  - rewrite coll_Add_absent by exact Habs. simpl. apply lookup_insert_eq.
  - rewrite coll_Add_overwrite. simpl. apply lookup_insert_eq.
Qed.

Lemma Store_failed_write_not_rolled_back_witness :
  exists c',
    Store StrictAbsence tx_blank_key opened_store = Return (c', Some ErrKeyRequired) /\
    db c' = db opened_store /\
    coll c' = (coll_Add StrictAbsence (Key tx_blank_key)
                 [IBytes (Value tx_blank_key); IBytes (Kind tx_blank_key)]
                 (coll opened_store)).1 /\
    (coll opened_store !! Key tx_blank_key = None \/ StrictAbsence = Overwrite ->
     coll c' !! Key tx_blank_key
     = Some [IBytes (Value tx_blank_key); IBytes (Kind tx_blank_key)]).
Proof.
  apply (Store_failed_write_not_rolled_back StrictAbsence tx_blank_key opened_store ∅
           ErrKeyRequired).
  - vm_compute. reflexivity.
  - left. vm_compute. reflexivity.
Defined.

Lemma Store_x1 pol : Store pol tx_a_x_1 opened_store = Return (stored_x1, None).
Proof. destruct pol; vm_compute; reflexivity. Qed.

(** C10 (amended). The error [Store] returns is the one of the bucket
    transaction alone, whatever [Add] did.  Whenever [Add] fails and the
    bucket accepts both writes, [Store] returns nil, the collection is what
    it was (its old entry under the key) and the bucket holds the
    transaction's value and kind; the two differ for that key when the entry
    already stored is not the transaction's own pair. *)
Theorem Store_discards_Add_error pol (t : Transaction) (c : collectionDB) :
  returned_error (Store pol t c)
    = returned_error (db_Update (store_tx (bucketName c) t) (db c)) /\
  forall (b : gmap string string) (e : error),
    (coll_Add pol (Key t) [IBytes (Value t); IBytes (Kind t)] (coll c)).2 = Some e ->
    tx_Bucket (bucketName c) (db c) = Some b ->
    put_ok (Key t) (Value t) = true ->
    put_ok (keykind (Key t)) (Kind t) = true ->
    exists c' b',
      Store pol t c = Return (c', None) /\
      coll c' = coll c /\
      tx_Bucket (bucketName c') (db c') = Some b' /\
      bucket_Get (Key t) b' = Some (Value t) /\
      bucket_Get (keykind (Key t)) b' = Some (Kind t) /\
      (coll c !! Key t <> Some [IBytes (Value t); IBytes (Kind t)] ->
       coll c' !! Key t <> bucket_entry (Key t) b').
Proof.
  split; [apply Store_returned_error|]. intros b e Hadd Hb Hv Hk.
  assert (Hfull : coll_Add pol (Key t) [IBytes (Value t); IBytes (Kind t)] (coll c)
                  = (coll c, Some e)).
  { destruct (coll_Add pol (Key t) _ (coll c)) as [m' e'] eqn:Heq.
    simpl in Hadd. subst e'.
    pose proof (coll_Add_error _ _ _ _ _ _ Heq) as (_ & -> & _ & _). reflexivity. }
  set (b' := (<[keykind (Key t) := Kind t]> (<[Key t := Value t]> b) : gmap string string)).
  exists {| db := <[bucketName c := b']> (db c); bucketName := bucketName c; coll := coll c |}.
  exists b'.
  assert (Hget : b' !! Key t = Some (Value t)).
  { unfold b'. rewrite lookup_insert_ne by apply keykind_neq. apply lookup_insert_eq. }
  assert (Hgetk : b' !! keykind (Key t) = Some (Kind t)) by apply lookup_insert_eq.
  split; [|split; [reflexivity|split; [|split; [exact Hget|split; [exact Hgetk|]]]]].
  - unfold Store. rewrite (store_tx_ok _ _ _ b Hb Hv Hk), Hfull. reflexivity.
  - simpl. unfold tx_Bucket. apply lookup_insert_eq.
  - intros Hdiff. simpl. unfold bucket_entry. rewrite Hget, Hgetk. exact Hdiff.
Qed.

Lemma Store_discards_Add_error_witness :
  returned_error (Store StrictAbsence tx_a_x_2 stored_x1)
    = returned_error (db_Update (store_tx (bucketName stored_x1) tx_a_x_2) (db stored_x1)) /\
  exists c' b',
    Store StrictAbsence tx_a_x_2 stored_x1 = Return (c', None) /\
    coll c' = coll stored_x1 /\
    tx_Bucket (bucketName c') (db c') = Some b' /\
    bucket_Get (Key tx_a_x_2) b' = Some (Value tx_a_x_2) /\
    bucket_Get (keykind (Key tx_a_x_2)) b' = Some (Kind tx_a_x_2) /\
    (coll stored_x1 !! Key tx_a_x_2
       <> Some [IBytes (Value tx_a_x_2); IBytes (Kind tx_a_x_2)] ->
     coll c' !! Key tx_a_x_2 <> bucket_entry (Key tx_a_x_2) b').
Proof.
  split.
  - apply (proj1 (Store_discards_Add_error StrictAbsence tx_a_x_2 stored_x1)).
  - apply (proj2 (Store_discards_Add_error StrictAbsence tx_a_x_2 stored_x1)
             {["x" := "1"; keykind "x" := "a"]} ErrDuplicateKey).
    + vm_compute. reflexivity.
    + vm_compute. reflexivity.
    + vm_compute. reflexivity.
    + vm_compute. reflexivity.
Defined.

(** C10, as stated, at a transaction stored a second time: [Add] fails, the
    bucket is written, [Store] returns nil, and the collection and the bucket
    hold the same contents for the key. *)
Lemma Store_same_pair_again_agrees :
  (coll_Add StrictAbsence (Key tx_a_x_1) [IBytes (Value tx_a_x_1); IBytes (Kind tx_a_x_1)]
     (coll stored_x1)).2 = Some ErrDuplicateKey /\
  Store StrictAbsence tx_a_x_1 stored_x1 = Return (stored_x1, None) /\
  exists b',
    tx_Bucket (bucketName stored_x1) (db stored_x1) = Some b' /\
    coll stored_x1 !! Key tx_a_x_1 = bucket_entry (Key tx_a_x_1) b'.
Proof.
  split; [vm_compute; reflexivity|]. split; [vm_compute; reflexivity|].
  exists {["x" := "1"; keykind "x" := "a"]}. split; vm_compute; reflexivity.
Qed.

(** C3. Two stores on the same key under the strict policy: the second [Add]
    is refused and its error dropped, so [GetValueKind] still answers with the
    first value, the root hash has not moved, and only the bucket holds the
    second value. *)
Theorem second_store_lost_in_collection :
  exists c2,
    Store StrictAbsence tx_a_x_1 opened_store = Return (stored_x1, None) /\
    Store StrictAbsence tx_a_x_2 stored_x1 = Return (c2, None) /\
    GetValueKind c2 "x" = Return ("1", "a", None) /\
    RootHash c2 = RootHash stored_x1 /\
    exists b, tx_Bucket (bucketName c2) (db c2) = Some b /\ bucket_Get "x" b = Some "2".
Proof.
  eexists. split; [apply Store_x1|]. split; [vm_compute; reflexivity|].
  split; [vm_compute; reflexivity|]. split; [vm_compute; reflexivity|].
  eexists. split; vm_compute; reflexivity.
Qed.

(** With an overwriting [Add] the same two stores end with the second value
    and a different root hash. *)
Lemma second_store_with_overwrite :
  exists c2,
    Store Overwrite tx_a_x_2 stored_x1 = Return (c2, None) /\
    GetValueKind c2 "x" = Return ("2", "a", None) /\
    RootHash c2 <> RootHash stored_x1.
Proof.
  eexists. split; [vm_compute; reflexivity|]. split; [vm_compute; reflexivity|].
  intros Heq.
  apply (f_equal (fun d => match d with MerkleRoot m => m !! "x" end)) in Heq.
  vm_compute in Heq. discriminate.
Qed.

(** [Store] never writes the collection under Kind ':' Key. *)
Lemma documented_key_neq t : documented_key t <> Key t.
Proof.
  intros Heq. apply (f_equal String.length) in Heq.
  unfold documented_key in Heq. rewrite !length_append in Heq. simpl in Heq. lia.
Qed.

Lemma Store_leaves_documented_key pol t c c' err :
  Store pol t c = Return (c', err) ->
  coll c' !! documented_key t = coll c !! documented_key t.
Proof.
  intros Hs. rewrite (Store_coll _ _ _ _ _ Hs). unfold coll_Add.
  destruct (coll c !! Key t); [destruct pol|]; simpl; try reflexivity;
    apply lookup_insert_ne; intros Heq; symmetry in Heq; now apply documented_key_neq in Heq.
Qed.

(** C4. [Store] holds the entry under the transaction's [Key] alone, not
    under Kind ':' Key: after storing kind "a", key "x" there is nothing under
    "a:x", and a transaction of kind "b" with the same key meets the same
    entry, so the collection still has the single key "x" while the bucket's
    value for "x" is overwritten. *)
Theorem Store_key_is_not_kind_colon_key pol :
  exists c2,
    Store pol tx_a_x_1 opened_store = Return (stored_x1, None) /\
    coll stored_x1 !! documented_key tx_a_x_1 = None /\
    coll stored_x1 !! Key tx_a_x_1 = Some [IBytes "1"; IBytes "a"] /\
    Store pol tx_b_x_3 stored_x1 = Return (c2, None) /\
    dom (coll c2) = {["x"]} /\
    coll c2 !! documented_key tx_b_x_3 = None /\
    exists b, tx_Bucket (bucketName c2) (db c2) = Some b /\ bucket_Get "x" b = Some "3".
Proof.
  destruct pol; eexists;
    (split; [apply Store_x1|]); (split; [vm_compute; reflexivity|]);
    (split; [vm_compute; reflexivity|]); (split; [vm_compute; reflexivity|]);
    (split; [vm_compute; reflexivity|]); (split; [vm_compute; reflexivity|]);
    eexists; split; vm_compute; reflexivity.
Qed.

(** C2. One [Store] on a freshly opened store, then a second
    [newCollectionDB] over the same database: [loadAll] reads the kind under
    the suffix "sig", which [Store] never writes, and takes the kind entry
    for a key of its own, so the rehydrated collection and its root hash are
    not the ones before. *)
Theorem rehydration_changes_root pol :
  exists c2,
    newCollectionDB pol empty_db "omniledger" = Return opened_store /\
    Store pol tx_a_x_1 opened_store = Return (stored_x1, None) /\
    newCollectionDB pol (db stored_x1) "omniledger" = Return c2 /\
    coll c2 = {["x" := [IBytes "1"; IBytes ""]; keykind "x" := [IBytes "a"; IBytes ""]]} /\
    RootHash c2 <> RootHash stored_x1.
Proof.
  destruct pol; eexists;
    (split; [vm_compute; reflexivity|]); (split; [apply Store_x1|]);
    (split; [vm_compute; reflexivity|]); (split; [vm_compute; reflexivity|]);
    intros Heq;
    apply (f_equal (fun d => match d with MerkleRoot m => m !! "x" end)) in Heq;
    vm_compute in Heq; discriminate.
Qed.

(** ** Rehydration *)

Section Rehydration.

Variable pol : AddPolicy.

Lemma loadAll_step_keeps (b : gmap string string) (m : gmap string (list iface)) kv k :
  is_Some (m !! k) -> is_Some (loadAll_step pol b m kv !! k).
Proof.
  intros Hk. unfold loadAll_step, coll_Add.
  destruct (m !! kv.1); [destruct pol|]; simpl; try exact Hk;
    (destruct (decide (kv.1 = k)) as [<-|Hne];
       [rewrite lookup_insert_eq; eauto|now rewrite lookup_insert_ne]).
Qed.

Lemma loadAll_step_adds (b : gmap string string) (m : gmap string (list iface)) kv :
  is_Some (loadAll_step pol b m kv !! kv.1).
Proof.
  unfold loadAll_step, coll_Add.
  destruct (m !! kv.1) eqn:Hk; [destruct pol|]; simpl;
    rewrite ?lookup_insert_eq, ?Hk; eauto.
Qed.

Lemma loadAll_fold_keeps (b : gmap string string) l :
  forall (m : gmap string (list iface)) k,
    is_Some (m !! k) -> is_Some (fold_left (loadAll_step pol b) l m !! k).
Proof.
  induction l as [|kv l IH]; intros m k Hk; simpl; [exact Hk|].
  apply IH. now apply loadAll_step_keeps.
Qed.

Lemma loadAll_fold_adds (b : gmap string string) l :
  forall (m : gmap string (list iface)) kv,
    In kv l -> is_Some (fold_left (loadAll_step pol b) l m !! kv.1).
Proof.
  induction l as [|kv0 l IH]; intros m kv Hin; [destruct Hin|]. simpl.
  destruct Hin as [->|Hin]; [|now apply IH].
  apply loadAll_fold_keeps, loadAll_step_adds.
Qed.

Lemma bucket_Cursor_In (b : gmap string string) k v :
  b !! k = Some v -> In (k, v) (bucket_Cursor b).
Proof.
  intros Hk. unfold bucket_Cursor. apply list_elem_of_In.
  rewrite merge_sort_Permutation. now apply elem_of_map_to_list.
Qed.

(** Every key of the bucket becomes a key of the rehydrated collection. *)
Lemma loadAll_bucket_keys c (b : gmap string string) k v :
  tx_Bucket (bucketName c) (db c) = Some b -> b !! k = Some v ->
  exists c', loadAll pol c = Return c' /\ is_Some (coll c' !! k).
Proof.
  intros Hb Hk. unfold loadAll. rewrite Hb. eexists. split; [reflexivity|].
  simpl. apply (loadAll_fold_adds b _ _ (k, v)). now apply bucket_Cursor_In.
Qed.

Lemma newCollectionDB_existing (d : gmap string (gmap string string)) name
    (b : gmap string string) :
  tx_Bucket name d = Some b ->
  newCollectionDB pol d name
  = loadAll pol {| db := d; bucketName := name; coll := collection_New |}.
Proof.
  unfold tx_Bucket. intros Hb.
  unfold newCollectionDB, db_Update, create_bucket_tx, tx_CreateBucket. simpl.
  destruct (Nat.eqb (String.length name) 0); [reflexivity|].
  now rewrite Hb.
Qed.

(** After any [Store] that returned nil, reopening the database yields a
    collection with an entry of its own under the key [Store] wrote the kind
    to; when the collection before had none there, the root hash has
    changed. *)
Lemma rehydration_takes_kind_for_a_key t c c' :
  Store pol t c = Return (c', None) ->
  exists c2,
    newCollectionDB pol (db c') (bucketName c') = Return c2 /\
    is_Some (coll c2 !! keykind (Key t)) /\
    (coll c' !! keykind (Key t) = None -> RootHash c2 <> RootHash c').
Proof.
  unfold Store, db_Update, store_tx. intros Hs.
  destruct (tx_Bucket (bucketName c) (db c)) as [b|] eqn:Hb; [|discriminate].
  destruct (bucket_Put (Key t) (Value t) b) as [b1 [e1|]] eqn:Hp1; [discriminate|].
  destruct (bucket_Put (keykind (Key t)) (Kind t) b1) as [b2 [e2|]] eqn:Hp2; [discriminate|].
  inversion Hs; subst c'; clear Hs. simpl.
  assert (Hb2 : b2 !! keykind (Key t) = Some (Kind t)).
  { unfold bucket_Put in Hp2.
    destruct (Nat.eqb _ 0); [discriminate|]. destruct (N.ltb MaxKeySize _); [discriminate|].
    destruct (N.ltb MaxValueSize _); [discriminate|].
    inversion Hp2. apply lookup_insert_eq. }
  assert (Hbucket : tx_Bucket (bucketName c) (<[bucketName c := b2]> (db c)) = Some b2)
    by apply lookup_insert_eq.
  rewrite (newCollectionDB_existing _ _ b2 Hbucket).
  destruct (loadAll_bucket_keys
              {| db := <[bucketName c := b2]> (db c); bucketName := bucketName c;
                 coll := collection_New |} b2 _ _ Hbucket Hb2) as (c2 & Hload & Hkey).
  exists c2. split; [exact Hload|]. split; [exact Hkey|].
  intros Hnone Heq. unfold RootHash, coll_GetRoot in Heq. simpl in Heq.
  injection Heq as Heq. rewrite Heq, Hnone in Hkey. now destruct Hkey.
Qed.

End Rehydration.

(** ** GetValueKind *)

(** Every case of [GetValueKind], by what the collection holds under the key. *)
Lemma GetValueKind_cases (c : collectionDB) (key : string) :
  match coll c !! key with
  | None => GetValueKind c key = Return ("", "", Some ErrNotFound)
  | Some [] =>
      GetValueKind c key
      = Return ("", "", Some (errors_New "nothing stored under that key"))
  | Some (IOther _ :: _) =>
      GetValueKind c key
      = Return ("", "", Some (errors_New "the value is not of type []byte"))
  | Some [IBytes _] => GetValueKind c key = Panic "index out of range"
  | Some (IBytes value :: IOther _ :: _) =>
      GetValueKind c key
      = Return (value, "", Some (errors_New "the signature is not of type []byte"))
  | Some (IBytes value :: IBytes kind :: _) =>
      GetValueKind c key = Return (value, kind, None)
  end.
Proof.
  unfold GetValueKind, coll_Record, proof_Values. simpl.
  destruct (coll c !! key) as [[|[v|d] [|[k|d'] hs]]|]; reflexivity.
Qed.


(** ** XOR of digests *)

Lemma xor_ascii_swap r a b :
  xor_ascii (xor_ascii r a) b = xor_ascii (xor_ascii r b) a.
Proof.
  destruct r as [r0 r1 r2 r3 r4 r5 r6 r7], a as [a0 a1 a2 a3 a4 a5 a6 a7],
    b as [b0 b1 b2 b3 b4 b5 b6 b7]; simpl.
  f_equal; rewrite !xorb_assoc; f_equal; apply xorb_comm.
Qed.

Lemma xor_ascii_comm a b : xor_ascii a b = xor_ascii b a.
Proof.
  destruct a as [a0 a1 a2 a3 a4 a5 a6 a7], b as [b0 b1 b2 b3 b4 b5 b6 b7]; simpl.
  f_equal; apply xorb_comm.
Qed.

Lemma xor_bytes_swap r a b :
  xor_bytes (xor_bytes r a) b = xor_bytes (xor_bytes r b) a.
Proof.
  revert a b. induction r as [|c r IH]; intros a b; [now destruct a, b|].
  destruct a as [|x a], b as [|y b]; simpl; try reflexivity.
  now rewrite xor_ascii_swap, IH.
Qed.

Lemma xor_bytes_comm a b :
  String.length a = String.length b -> xor_bytes a b = xor_bytes b a.
Proof.
  revert b. induction a as [|x a IH]; intros [|y b] Hlen; simpl in *; try discriminate;
    [reflexivity|].
  rewrite xor_ascii_comm, IH; [reflexivity|lia].
Qed.

Lemma length_xor_bytes a b : String.length (xor_bytes a b) = String.length a.
Proof.
  revert b. induction a as [|x a IH]; intros [|y b]; simpl; try reflexivity.
  now rewrite IH.
Qed.

Lemma length_make_bytes n : String.length (make_bytes n) = n.
Proof. induction n as [|n IH]; simpl; [reflexivity|now rewrite IH]. Qed.

Lemma fold_left_swap_perm {A B : Type} (f : A -> B -> A) :
  (forall r a b, f (f r a) b = f (f r b) a) ->
  forall l l', Permutation l l' -> forall r, fold_left f l r = fold_left f l' r.
Proof.
  intros Hswap l l' Hperm.
  induction Hperm as [|x l l' _ IH|x y l|l l' l'' _ IH1 _ IH2]; intros r; simpl.
  - reflexivity.
  - apply IH.
  - now rewrite Hswap.
  - now rewrite IH1.
Qed.

Section Salt.

Variable H : Hash.

(** The salt does not depend on the order of the batch. *)
Lemma xorTransactions_perm bs bs' :
  Permutation bs bs' -> xorTransactions H bs = xorTransactions H bs'.
Proof.
  intros Hperm. unfold xorTransactions.
  apply fold_left_swap_perm; [|exact Hperm].
  intros r a b. apply xor_bytes_swap.
Qed.

Lemma length_salt_spec bs : String.length (salt_spec H bs) = sha256_Size.
Proof.
  destruct bs as [|b bs]; unfold salt_spec.
  - apply length_make_bytes.
  - simpl. rewrite length_xor_bytes. apply Sum256_length.
Qed.

Lemma fold_xor_pull bs : forall z h,
  fold_left (fun result t => xor_bytes result (Sum256 H t)) bs (xor_bytes z h)
  = xor_bytes (fold_left (fun result t => xor_bytes result (Sum256 H t)) bs z) h.
Proof.
  induction bs as [|b bs IH]; intros z h; simpl; [reflexivity|].
  now rewrite xor_bytes_swap, IH.
Qed.

(** The code's running XOR is the XOR of all the hashes. *)
Lemma xorTransactions_salt_spec bs : xorTransactions H bs = salt_spec H bs.
Proof.
  induction bs as [|b bs IH]; [reflexivity|].
  unfold xorTransactions in *. cbn [fold_left]. rewrite fold_xor_pull, IH.
  change (salt_spec H (b :: bs)) with (xor_bytes (Sum256 H b) (salt_spec H bs)).
  apply xor_bytes_comm. now rewrite length_salt_spec, Sum256_length.
Qed.

Lemma length_xorTransactions bs : String.length (xorTransactions H bs) = sha256_Size.
Proof. rewrite xorTransactions_salt_spec. apply length_salt_spec. Qed.

End Salt.

(** ** Byte-wise comparison and the big-endian value *)

Lemma be_value_from_acc s : forall acc,
  be_value_from acc s = (acc * 256 ^ N.of_nat (String.length s) + be_value s)%N.
Proof.
  unfold be_value. induction s as [|c s IH]; intros acc.
  - simpl. lia.
  - cbn [be_value_from String.length]. rewrite IH, (IH (0 * 256 + N_of_ascii c)%N).
    rewrite Nat2N.inj_succ, N.pow_succ_r'. lia.
Qed.

Lemma be_value_cons c s :
  be_value (String c s) = (N_of_ascii c * 256 ^ N.of_nat (String.length s) + be_value s)%N.
Proof.
  unfold be_value at 1. cbn [be_value_from]. rewrite be_value_from_acc. lia.
Qed.

Lemma be_value_bound s : (be_value s < 256 ^ N.of_nat (String.length s))%N.
Proof.
  induction s as [|c s IH].
  - cbn. lia.
  - rewrite be_value_cons. cbn [String.length]. rewrite Nat2N.inj_succ, N.pow_succ_r'.
    pose proof (N_ascii_bounded c). nia.
Qed.

(** On byte strings of one length, [bytes.Compare] is the comparison of the
    unsigned big-endian numbers. *)
Lemma compare_be_value a : forall b,
  String.length a = String.length b ->
  String.compare a b = N.compare (be_value a) (be_value b).
Proof.
  induction a as [|x a IH]; intros [|y b] Hlen; simpl in Hlen; try discriminate.
  - reflexivity.
  - injection Hlen as Hlen. cbn [String.compare]. rewrite !be_value_cons, <- Hlen.
    unfold Ascii.compare.
    pose proof (be_value_bound a) as Ha. pose proof (be_value_bound b) as Hb.
    rewrite <- Hlen in Hb.
    set (p := (256 ^ N.of_nat (String.length a))%N) in *.
    destruct (N.compare_spec (N_of_ascii x) (N_of_ascii y)) as [Heq|Hlt|Hgt].
    + rewrite (IH b Hlen), Heq.
      destruct (N.compare_spec (be_value a) (be_value b)) as [E|L|G];
        symmetry; [apply N.compare_eq_iff|apply N.compare_lt_iff|apply N.compare_gt_iff]; lia.
    + symmetry. apply N.compare_lt_iff. nia.
    + symmetry. apply N.compare_gt_iff. nia.
Qed.

Section Less.

Variable H : Hash.

(** The sort key of a serialized transaction. *)
Lemma salted_less_be_value salt a b :
  salted_less H salt a b
  = (be_value (Sum256 H (salt ++ a)) <? be_value (Sum256 H (salt ++ b)))%N.
Proof.
  unfold salted_less, bytes_Compare, N.ltb.
  rewrite compare_be_value by now rewrite !Sum256_length.
  now destruct (N.compare _ _).
Qed.

Lemma salted_less_transitive_ordering salt : transitive_ordering (salted_less H salt).
Proof.
  repeat split.
  - intros a. rewrite salted_less_be_value. apply N.ltb_irrefl.
  - intros a b c. rewrite !salted_less_be_value, !N.ltb_lt. lia.
  - intros a b c. rewrite !salted_less_be_value, !N.ltb_ge. lia.
Qed.

End Less.

(** ** Sorting *)

Lemma collision_free_spec H salt bs :
  collision_free H salt bs = true ->
  forall a b, In a bs -> In b bs ->
    Sum256 H (salt ++ a) = Sum256 H (salt ++ b) -> a = b.
Proof.
  unfold collision_free. intros Hcf a b Ha Hb Heq.
  rewrite forallb_forall in Hcf. specialize (Hcf a Ha).
  rewrite forallb_forall in Hcf. specialize (Hcf b Hb).
  rewrite Heq, String.eqb_refl in Hcf. simpl in Hcf. now apply String.eqb_eq.
Qed.

Lemma collision_free_perm H salt bs bs' :
  Permutation bs bs' -> collision_free H salt bs = true -> collision_free H salt bs' = true.
Proof.
  intros Hperm Hcf. unfold collision_free.
  apply forallb_forall. intros a Ha. apply forallb_forall. intros b Hb.
  apply Permutation_sym in Hperm.
  pose proof (Permutation_in _ Hperm Ha) as Ha'.
  pose proof (Permutation_in _ Hperm Hb) as Hb'.
  destruct (String.eqb (Sum256 H (salt ++ a)) (Sum256 H (salt ++ b))) eqn:Heq; [|reflexivity].
  apply String.eqb_eq in Heq. simpl. apply String.eqb_eq.
  now apply (collision_free_spec H salt bs Hcf).
Qed.

(** Two sorted arrangements of one multiset are the same list when the order
    tells any two of its elements apart. *)
Lemma sorted_perm_unique {A : Type} (R : A -> A -> Prop) (l1 : list A) :
  forall l2,
    StronglySorted R l1 -> StronglySorted R l2 -> Permutation l1 l2 ->
    (forall a b, In a l1 -> In b l1 -> R a b -> R b a -> a = b) ->
    l1 = l2.
Proof.
  induction l1 as [|a l1 IH]; intros l2 Hs1 Hs2 Hperm Hanti.
  - apply Permutation_nil in Hperm. now subst.
  - destruct l2 as [|b l2]; [apply Permutation_sym, Permutation_nil in Hperm; discriminate|].
    apply StronglySorted_inv in Hs1 as [Hs1 Ha]. apply StronglySorted_inv in Hs2 as [Hs2 Hb].
    rewrite List.Forall_forall in Ha, Hb.
    assert (Hab : a = b).
    { assert (Hina : In a (b :: l2)) by (apply (Permutation_in _ Hperm); now left).
      assert (Hinb : In b (a :: l1))
        by (apply (Permutation_in _ (Permutation_sym Hperm)); now left).
      destruct Hina as [Heq|Hina]; [now symmetry|].
      destruct Hinb as [Heq|Hinb]; [exact Heq|].
      apply Hanti; [now left|now right|now apply Ha|now apply Hb]. }
    subst b. f_equal. apply Permutation_cons_inv in Hperm.
    apply IH; auto. intros x y Hx Hy. apply Hanti; now right.
Qed.

Section SortWithSalt.

Variable H : Hash.

(** Whatever conforming [sort.Slice] runs, and whatever order the batch came
    in, [sortWithSalt] ends with the same sequence, provided no two different
    elements share a salted hash. *)
Lemma sortWithSalt_unique (S S' : Sorter) salt bs bs' :
  Permutation bs bs' ->
  collision_free H salt bs = true ->
  sortWithSalt H S bs salt = sortWithSalt H S' bs' salt.
Proof.
  intros Hperm Hcf. unfold sortWithSalt.
  apply (sorted_perm_unique (fun a b => salted_less H salt b a = false)).
  - apply sort_Slice_sorted, salted_less_transitive_ordering.
  - apply sort_Slice_sorted, salted_less_transitive_ordering.
  - rewrite sort_Slice_perm, sort_Slice_perm. exact Hperm.
  - intros a b Ha Hb Hba Hab.
    apply (collision_free_spec H salt bs Hcf).
    + exact (Permutation_in _ (sort_Slice_perm S _ bs) Ha).
    + exact (Permutation_in _ (sort_Slice_perm S _ bs) Hb).
    + rewrite salted_less_be_value in Hba, Hab. apply N.ltb_ge in Hba, Hab.
      apply String.compare_eq_iff.
      rewrite compare_be_value by now rewrite !Sum256_length.
      apply N.compare_eq_iff. lia.
Qed.

(** The sorted sequence ascends in the big-endian value of the salted hash. *)
Lemma sortWithSalt_sorted (S : Sorter) salt bs :
  StronglySorted
    (fun a b => (be_value (Sum256 H (salt ++ a)) <= be_value (Sum256 H (salt ++ b)))%N)
    (sortWithSalt H S bs salt).
Proof.
  pose proof (sort_Slice_sorted S (salted_less H salt) bs
                (salted_less_transitive_ordering H salt)) as Hs.
  unfold sortWithSalt. induction Hs as [|a l Hs IH Hall]; constructor; [exact IH|].
  rewrite List.Forall_forall in *. intros b Hb. specialize (Hall b Hb).
  rewrite salted_less_be_value in Hall. now apply N.ltb_ge in Hall.
Qed.

End SortWithSalt.

(** ** Marshalling a batch *)

Section Marshalling.

Variable C : Codec.

Lemma marshal_all_cons t ts bs :
  marshal_all C (t :: ts) = Ok bs ->
  exists b bs0, Marshal C t = Ok b /\ marshal_all C ts = Ok bs0 /\ bs = b :: bs0.
Proof.
  simpl. destruct (Marshal C t) as [b|e]; [|discriminate].
  destruct (marshal_all C ts) as [bs0|e]; [|discriminate].
  intros Heq. inversion Heq. eauto.
Qed.

Lemma marshal_all_perm ts ts' :
  Permutation ts ts' ->
  forall bs, marshal_all C ts = Ok bs ->
    exists bs', marshal_all C ts' = Ok bs' /\ Permutation bs bs'.
Proof.
  intros Hperm.
  induction Hperm as [|x l l' _ IH|x y l|l l' l'' _ IH1 _ IH2]; intros bs Hm.
  - exists bs. split; [exact Hm|reflexivity].
  - apply marshal_all_cons in Hm as (b & bs0 & Hb & Hrest & ->).
    destruct (IH bs0 Hrest) as (bs' & Hm' & Hp).
    exists (b :: bs'). simpl. rewrite Hb, Hm'. split; [reflexivity|now constructor].
  - apply marshal_all_cons in Hm as (b & bs0 & Hb & Hrest & ->).
    apply marshal_all_cons in Hrest as (b1 & bs1 & Hb1 & Hrest & ->).
    exists (b1 :: b :: bs1). simpl. rewrite Hb, Hb1, Hrest. split; [reflexivity|constructor].
  - destruct (IH1 bs Hm) as (bs' & Hm' & Hp). destruct (IH2 bs' Hm') as (bs'' & Hm'' & Hp').
    exists bs''. split; [exact Hm''|now transitivity bs'].
Qed.

Lemma marshal_all_error ts t e :
  In t ts -> Marshal C t = Err e -> exists e', marshal_all C ts = Err e'.
Proof.
  induction ts as [|t0 ts IH]; intros Hin He; [destruct Hin|].
  simpl. destruct Hin as [->|Hin].
  - rewrite He. eauto.
  - destruct (Marshal C t0) as [b|e0]; [|eauto].
    destruct (IH Hin He) as [e' ->]. eauto.
Qed.

Lemma unmarshal_all_error bs b :
  In b bs -> (forall t, Unmarshal C b <> Ok (MsgTransaction t)) ->
  exists e', unmarshal_all C bs = Err e'.
Proof.
  induction bs as [|b0 bs IH]; intros Hin Hbad; [destruct Hin|].
  simpl. destruct Hin as [->|Hin].
  - destruct (Unmarshal C b) as [[t|n]|e]; [now destruct (Hbad t)|eauto|eauto].
  - destruct (Unmarshal C b0) as [[t|n]|e]; [|eauto|eauto].
    destruct (IH Hin Hbad) as [e' ->]. eauto.
Qed.

End Marshalling.

(** ** sortTransactions *)

(** C8. Every return of [sortTransactions] with an error leaves the slice
    as it was; and it does return an error, with the slice as it was, as soon
    as one element cannot be marshalled, or one serialized element cannot be
    unmarshalled back to a [*Transaction]. *)
Theorem sortTransactions_failure_leaves_slice (H : Hash) (S : Sorter) (C : Codec)
    (ts : list Transaction) :
  (forall ts' e, sortTransactions H S C ts = (ts', Some e) -> ts' = ts) /\
  (forall t e, In t ts -> Marshal C t = Err e ->
     exists e', sortTransactions H S C ts = (ts, Some e')) /\
  (forall bs b, marshal_all C ts = Ok bs -> In b bs ->
     (forall t, Unmarshal C b <> Ok (MsgTransaction t)) ->
     exists e', sortTransactions H S C ts = (ts, Some e')).
Proof.
  unfold sortTransactions. repeat split.
  - intros ts' e. destruct (marshal_all C ts) as [bs|e0]; [|now inversion 1].
    destruct (unmarshal_all C _) as [sortedTs|e1]; [discriminate|now inversion 1].
  - intros t e Hin He. destruct (marshal_all_error C ts t e Hin He) as [e' ->]. eauto.
  - intros bs b Hm Hin Hbad. rewrite Hm.
    assert (Hin' : In b (sortWithSalt H S bs (xorTransactions H bs))).
    { unfold sortWithSalt.
      exact (Permutation_in _ (Permutation_sym (sort_Slice_perm S _ bs)) Hin). }
    destruct (unmarshal_all_error C _ b Hin' Hbad) as [e' ->]. eauto.
Qed.

(** C5. Two runs on one batch end alike, whichever conforming [sort.Slice]
    does the sorting; and when the batch is handed over in another order, a
    run that succeeds on the one succeeds on the other with the identical
    resulting sequence.  The batch is one in which no two different
    serialized transactions share a salted hash. *)
Theorem sortTransactions_order_independent (H : Hash) (S S' : Sorter) (C : Codec)
    (ts ts' : list Transaction) :
  Permutation ts ts' ->
  (forall bs, marshal_all C ts = Ok bs ->
     collision_free H (xorTransactions H bs) bs = true) ->
  sortTransactions H S C ts = sortTransactions H S' C ts /\
  forall out, sortTransactions H S C ts = (out, None) ->
    sortTransactions H S' C ts' = (out, None).
Proof.
  intros Hperm Hcf. unfold sortTransactions. split.
  - destruct (marshal_all C ts) as [bs|e] eqn:Hm; [|reflexivity].
    rewrite (sortWithSalt_unique H S S' _ bs bs (Permutation_refl _) (Hcf bs eq_refl)).
    reflexivity.
  - intros out. destruct (marshal_all C ts) as [bs|e] eqn:Hm; [|discriminate].
    destruct (marshal_all_perm C ts ts' Hperm bs Hm) as (bs' & -> & Hp).
    rewrite <- (xorTransactions_perm H bs bs' Hp).
    rewrite <- (sortWithSalt_unique H S S' _ bs bs' Hp (Hcf bs eq_refl)).
    destruct (unmarshal_all C _) as [sortedTs|e]; [auto|discriminate].
Qed.

(** C7. On a batch that marshals to [bs]: the salt [sortTransactions] uses
    is the XOR of the SHA-256 hashes of all of [bs], the same for every
    order of [bs]; the sequence it unmarshals is a rearrangement of [bs] that
    ascends in the value of sha256(salt ++ bytes) read as an unsigned
    big-endian number, a less-than that [bytes.Compare] decides; and what it
    writes back on success is that sequence, unmarshalled. *)
Theorem sortTransactions_algorithm (H : Hash) (S : Sorter) (C : Codec)
    (ts : list Transaction) (bs : list string) :
  marshal_all C ts = Ok bs ->
  let salt := xorTransactions H bs in
  let sorted := sortWithSalt H S bs salt in
  salt = salt_spec H bs /\
  (forall bs', Permutation bs bs' -> xorTransactions H bs' = salt) /\
  Permutation sorted bs /\
  StronglySorted
    (fun a b => (be_value (Sum256 H (salt ++ a)) <= be_value (Sum256 H (salt ++ b)))%N)
    sorted /\
  (forall a b,
     salted_less H salt a b = true <->
     (be_value (Sum256 H (salt ++ a)) < be_value (Sum256 H (salt ++ b)))%N) /\
  (forall out, sortTransactions H S C ts = (out, None) <-> unmarshal_all C sorted = Ok out).
Proof.
  intros Hm salt sorted. repeat split.
  - apply xorTransactions_salt_spec.
  - intros bs' Hp. symmetry. now apply xorTransactions_perm.
  - apply sort_Slice_perm.
  - apply sortWithSalt_sorted.
  - rewrite salted_less_be_value. apply N.ltb_lt.
  - rewrite salted_less_be_value. apply N.ltb_lt.
  - unfold sortTransactions. rewrite Hm. fold salt. fold sorted.
    destruct (unmarshal_all C sorted); [now inversion 1|discriminate].
  - unfold sortTransactions. rewrite Hm. fold salt. fold sorted.
    now intros ->.
Qed.

(** ** The insertion sort is a [sort.Slice] *)

Lemma insert_left_perm less x left : Permutation (insert_left less x left) (x :: left).
Proof.
  induction left as [|y left IH]; simpl; [reflexivity|].
  destruct (less x y); [|reflexivity].
  rewrite IH. apply perm_swap.
Qed.

Lemma insertion_fold_perm less l : forall acc,
  Permutation (fold_left (fun left x => insert_left less x left) l acc) (l ++ acc).
Proof.
  induction l as [|x l IH]; intros acc; simpl; [reflexivity|].
  rewrite IH, insert_left_perm. symmetry. apply Permutation_middle.
Qed.

Lemma insertionSort_perm less l : Permutation (insertionSort less l) l.
Proof.
  unfold insertionSort. rewrite <- Permutation_rev, insertion_fold_perm.
  now rewrite app_nil_r.
Qed.

Lemma insert_left_sorted less x left :
  transitive_ordering less ->
  StronglySorted (fun a b => less a b = false) left ->
  StronglySorted (fun a b => less a b = false) (insert_left less x left).
Proof.
  intros (Hirr & Htrans & Hneg) Hs.
  induction Hs as [|y left Hs IH Hall]; simpl; [repeat constructor|].
  destruct (less x y) eqn:Hxy.
  - constructor; [exact IH|].
    apply (Permutation_Forall (Permutation_sym (insert_left_perm less x left))).
    constructor; [|exact Hall].
    destruct (less y x) eqn:Hyx; [|reflexivity].
    pose proof (Htrans x y x Hxy Hyx) as Hxx. now rewrite Hirr in Hxx.
  - constructor; [now constructor|]. constructor; [exact Hxy|].
    rewrite List.Forall_forall in *. intros z Hz. apply (Hneg x y z Hxy). now apply Hall.
Qed.

Lemma insertion_fold_sorted less l :
  transitive_ordering less ->
  forall acc, StronglySorted (fun a b => less a b = false) acc ->
    StronglySorted (fun a b => less a b = false)
      (fold_left (fun left x => insert_left less x left) l acc).
Proof.
  intros Hto. induction l as [|x l IH]; intros acc Hs; simpl; [exact Hs|].
  apply IH. now apply insert_left_sorted.
Qed.

Lemma StronglySorted_rev_flip {A : Type} (R : A -> A -> Prop) l :
  StronglySorted R l -> StronglySorted (fun a b => R b a) (rev l).
Proof.
  induction 1 as [|a l Hs IH Hall]; simpl; [constructor|].
  apply StronglySorted_app. split; [|split; [exact IH|repeat constructor]].
  intros x y Hx Hy. apply list_elem_of_In in Hx, Hy. apply in_rev in Hx.
  destruct Hy as [<-|[]]. rewrite List.Forall_forall in Hall. now apply Hall.
Qed.

Lemma insertionSort_sorted less l :
  transitive_ordering less ->
  StronglySorted (fun a b => less b a = false) (insertionSort less l).
Proof.
  intros Hto. unfold insertionSort.
  apply (StronglySorted_rev_flip (fun a b => less a b = false)).
  apply insertion_fold_sorted; [exact Hto|constructor].
Qed.

Definition insertion_sorter : Sorter :=
  {| sort_Slice := insertionSort;
     sort_Slice_perm := insertionSort_perm;
     sort_Slice_sorted := insertionSort_sorted |}.

Lemma length_fit n : forall s, String.length (fit n s) = n.
Proof. induction n as [|n IH]; intros [|c s]; simpl; auto. Qed.

Definition tail_hash : Hash :=
  {| Sum256 := tail_digest;
     Sum256_length := fun b => length_fit sha256_Size _ |}.

(** ** The ordering on a batch of three *)

Lemma sortTransactions_order_independent_witness :
  sortTransactions tail_hash insertion_sorter demo_codec [T1; T2; T3]
  = sortTransactions tail_hash insertion_sorter demo_codec [T1; T2; T3] /\
  forall out,
    sortTransactions tail_hash insertion_sorter demo_codec [T1; T2; T3] = (out, None) ->
    sortTransactions tail_hash insertion_sorter demo_codec [T3; T1; T2] = (out, None).
Proof.
  apply (sortTransactions_order_independent tail_hash insertion_sorter insertion_sorter
           demo_codec [T1; T2; T3] [T3; T1; T2]).
  - apply Permutation_sym. exact (Permutation_cons_append [T1; T2] T3).
  - intros bs Hm. vm_compute in Hm. inversion Hm; subst. vm_compute. reflexivity.
Defined.

(** Both orders of the batch do succeed, with one and the same sequence. *)
Example sortTransactions_three :
  sortTransactions tail_hash insertion_sorter demo_codec [T1; T2; T3] = ([T1; T2; T3], None) /\
  sortTransactions tail_hash insertion_sorter demo_codec [T3; T1; T2] = ([T1; T2; T3], None) /\
  sortTransactions tail_hash insertion_sorter demo_codec [T2; T3; T1] = ([T1; T2; T3], None).
Proof. repeat split; vm_compute; reflexivity. Qed.

Lemma sortTransactions_algorithm_witness :
  let salt := xorTransactions tail_hash ["t3"; "t1"; "t2"] in
  let sorted := sortWithSalt tail_hash insertion_sorter ["t3"; "t1"; "t2"] salt in
  salt = salt_spec tail_hash ["t3"; "t1"; "t2"] /\
  (forall bs', Permutation ["t3"; "t1"; "t2"] bs' -> xorTransactions tail_hash bs' = salt) /\
  Permutation sorted ["t3"; "t1"; "t2"] /\
  StronglySorted
    (fun a b => (be_value (Sum256 tail_hash (salt ++ a))
                 <= be_value (Sum256 tail_hash (salt ++ b)))%N)
    sorted /\
  (forall a b,
     salted_less tail_hash salt a b = true <->
     (be_value (Sum256 tail_hash (salt ++ a)) < be_value (Sum256 tail_hash (salt ++ b)))%N) /\
  (forall out,
     sortTransactions tail_hash insertion_sorter demo_codec [T3; T1; T2] = (out, None)
     <-> unmarshal_all demo_codec sorted = Ok out).
Proof.
  apply (sortTransactions_algorithm tail_hash insertion_sorter demo_codec [T3; T1; T2]
           ["t3"; "t1"; "t2"]).
  vm_compute. reflexivity.
Defined.

Lemma sortTransactions_failure_leaves_slice_witness :
  exists e',
    sortTransactions tail_hash insertion_sorter demo_codec [T2; tx_blank_key; T1]
    = ([T2; tx_blank_key; T1], Some e').
Proof.
  destruct (sortTransactions_failure_leaves_slice tail_hash insertion_sorter demo_codec
              [T2; tx_blank_key; T1]) as (_ & Hmarshal & _).
  apply (Hmarshal tx_blank_key (network_error "cannot marshal")).
  - simpl. auto.
  - vm_compute. reflexivity.
Defined.

(** * Further properties of the store *)

(** ** Store and GetValueKind *)

Lemma GetValueKind_pair c key v k :
  coll c !! key = Some [IBytes v; IBytes k] -> GetValueKind c key = Return (v, k, None).
Proof.
  intros Hk. pose proof (GetValueKind_cases c key) as Hc. now rewrite Hk in Hc.
Qed.

Lemma GetValueKind_coll c c' key :
  coll c' !! key = coll c !! key -> GetValueKind c' key = GetValueKind c key.
Proof.
  intros Heq. unfold GetValueKind, coll_Record, proof_Values. simpl. now rewrite Heq.
Qed.

(** X1. What was stored is what is read back: after [Store] of a transaction
    whose key the collection did not hold, [GetValueKind] on that key returns
    the transaction's value and kind, also when [Store] returned an error of
    the bucket. *)
Theorem Store_then_GetValueKind pol (t : Transaction) (c c' : collectionDB)
    (err : option error) :
  coll c !! Key t = None ->
  Store pol t c = Return (c', err) ->
  GetValueKind c' (Key t) = Return (Value t, Kind t, None).
Proof.
  intros Habs Hs. apply GetValueKind_pair.
  rewrite (Store_coll _ _ _ _ _ Hs), coll_Add_absent by exact Habs.
  apply lookup_insert_eq.
Qed.

Lemma Store_then_GetValueKind_witness :
  GetValueKind stored_x1 (Key tx_a_x_1)
  = Return (Value tx_a_x_1, Kind tx_a_x_1, None).
Proof.
  apply (Store_then_GetValueKind StrictAbsence tx_a_x_1 opened_store stored_x1 None).
  - vm_compute. reflexivity.
  - vm_compute. reflexivity.
Defined.

(** X2. [Store] answers for one key only: what [GetValueKind] returns on any
    other key is what it returned before. *)
Theorem Store_other_key pol (t : Transaction) (c c' : collectionDB)
    (err : option error) (key : string) :
  key <> Key t ->
  Store pol t c = Return (c', err) ->
  GetValueKind c' key = GetValueKind c key.
Proof.
  intros Hne Hs. apply GetValueKind_coll.
  rewrite (Store_coll _ _ _ _ _ Hs). unfold coll_Add.
  destruct (coll c !! Key t); [destruct pol|]; simpl; try reflexivity;
    now apply lookup_insert_ne.
Qed.

Lemma Store_other_key_witness :
  GetValueKind stored_x1 "y" = GetValueKind opened_store "y".
Proof.
  apply (Store_other_key StrictAbsence tx_a_x_1 opened_store stored_x1 None "y").
  - vm_compute. discriminate.
  - vm_compute. reflexivity.
Defined.

Lemma Store_nil_inv pol t c c' :
  Store pol t c = Return (c', None) ->
  exists b : gmap string string,
    tx_Bucket (bucketName c) (db c) = Some b /\
    put_ok (Key t) (Value t) = true /\
    put_ok (keykind (Key t)) (Kind t) = true /\
    bucketName c' = bucketName c /\
    db c' = <[bucketName c := <[keykind (Key t) := Kind t]> (<[Key t := Value t]> b)]> (db c).
Proof.
  unfold Store, db_Update, store_tx. intros Hs.
  destruct (tx_Bucket (bucketName c) (db c)) as [b|] eqn:Hb; [|discriminate].
  destruct (put_ok (Key t) (Value t)) eqn:Hv.
  - rewrite (bucket_Put_ok _ _ _ Hv) in Hs.
    destruct (put_ok (keykind (Key t)) (Kind t)) eqn:Hk.
    + rewrite (bucket_Put_ok _ _ _ Hk) in Hs. inversion Hs; subst. simpl. eauto 8.
    + destruct (bucket_Put (keykind (Key t)) (Kind t) _) as [b2 [e2|]] eqn:Hp2;
        [discriminate|].
      exfalso. unfold put_ok in Hk. unfold bucket_Put in Hp2.
      destruct (Nat.eqb _ 0); [discriminate|]. destruct (N.ltb MaxKeySize _); [discriminate|].
      destruct (N.ltb MaxValueSize _); discriminate.
  - destruct (bucket_Put (Key t) (Value t) b) as [b1 [e1|]] eqn:Hp1; [discriminate|].
    exfalso. unfold put_ok in Hv. unfold bucket_Put in Hp1.
    destruct (Nat.eqb _ 0); [discriminate|]. destruct (N.ltb MaxKeySize _); [discriminate|].
    destruct (N.ltb MaxValueSize _); discriminate.
Qed.

Lemma Store_nil_frame pol (t : Transaction) (c c' : collectionDB) :
  Store pol t c = Return (c', None) ->
  exists b b' : gmap string string,
    tx_Bucket (bucketName c) (db c) = Some b /\
    tx_Bucket (bucketName c') (db c') = Some b' /\
    bucket_Get (Key t) b' = Some (Value t) /\
    bucket_Get (keykind (Key t)) b' = Some (Kind t) /\
    (forall k, k <> Key t -> k <> keykind (Key t) -> bucket_Get k b' = bucket_Get k b) /\
    (forall name, name <> bucketName c -> tx_Bucket name (db c') = tx_Bucket name (db c)).
Proof.
  intros Hs. destruct (Store_nil_inv _ _ _ _ Hs) as (b & Hb & _ & _ & Hn & Hd).
  exists b, (<[keykind (Key t) := Kind t]> (<[Key t := Value t]> b)).
  unfold tx_Bucket, bucket_Get in *. rewrite Hn, Hd. repeat split.
  - exact Hb.
  - apply lookup_insert_eq.
  - rewrite lookup_insert_ne by apply keykind_neq. apply lookup_insert_eq.
  - apply lookup_insert_eq.
  - intros k Hk Hkk. rewrite !lookup_insert_ne by congruence. reflexivity.
  - intros name Hname. now rewrite lookup_insert_ne by congruence.
Qed.

(** X3. What a [Store] that returned nil did to the database: the store's bucket
    holds the value under the key and the kind under [keykind]; every other
    key of the bucket, and every other bucket, is as before. *)
Theorem Store_nil_bucket pol (t : Transaction) (c c' : collectionDB) :
  Store pol t c = Return (c', None) ->
  exists b b' : gmap string string,
    tx_Bucket (bucketName c) (db c) = Some b /\
    tx_Bucket (bucketName c') (db c') = Some b' /\
    bucket_Get (Key t) b' = Some (Value t) /\
    bucket_Get (keykind (Key t)) b' = Some (Kind t) /\
    (forall k, k <> Key t -> k <> keykind (Key t) -> bucket_Get k b' = bucket_Get k b) /\
    (forall name, name <> bucketName c -> tx_Bucket name (db c') = tx_Bucket name (db c)).
Proof. apply Store_nil_frame. Qed.

Lemma Store_nil_bucket_witness :
  exists b b' : gmap string string,
    tx_Bucket (bucketName opened_store) (db opened_store) = Some b /\
    tx_Bucket (bucketName stored_x1) (db stored_x1) = Some b' /\
    bucket_Get (Key tx_a_x_1) b' = Some (Value tx_a_x_1) /\
    bucket_Get (keykind (Key tx_a_x_1)) b' = Some (Kind tx_a_x_1) /\
    (forall k, k <> Key tx_a_x_1 -> k <> keykind (Key tx_a_x_1) ->
       bucket_Get k b' = bucket_Get k b) /\
    (forall name, name <> bucketName opened_store ->
       tx_Bucket name (db stored_x1) = tx_Bucket name (db opened_store)).
Proof.
  apply (Store_nil_bucket StrictAbsence tx_a_x_1 opened_store stored_x1).
  vm_compute. reflexivity.
Defined.

Lemma length_keykind key : String.length (keykind key) = (String.length key + 8)%nat.
Proof. unfold keykind. rewrite !length_append. reflexivity. Qed.


Lemma Store_returns pol t c (b : gmap string string) :
  tx_Bucket (bucketName c) (db c) = Some b ->
  exists c' err, Store pol t c = Return (c', err).
Proof.
  intros Hb. unfold Store, db_Update, store_tx. rewrite Hb.
  destruct (bucket_Put (Key t) (Value t) b) as [b1 [e1|]]; [eauto|].
  destruct (bucket_Put (keykind (Key t)) (Kind t) b1) as [b2 [e2|]]; eauto.
Qed.



(** X5. The key of the kind entry is not set apart from the keys of the users:
    a later transaction whose key is [keykind] of an earlier key replaces, in
    the bucket, the kind stored for the earlier one by its own value. *)
Theorem Store_kind_entry_overwritten pol (t1 t2 : Transaction) (c c1 c2 : collectionDB) :
  Key t2 = keykind (Key t1) ->
  Store pol t1 c = Return (c1, None) ->
  Store pol t2 c1 = Return (c2, None) ->
  exists b : gmap string string,
    tx_Bucket (bucketName c2) (db c2) = Some b /\
    bucket_Get (Key t1) b = Some (Value t1) /\
    bucket_Get (keykind (Key t1)) b = Some (Value t2).
Proof.
  intros Hkey Hs1 Hs2.
  destruct (Store_nil_frame _ _ _ _ Hs1) as (b0 & b1 & _ & Hb1 & Hv1 & _ & _ & _).
  destruct (Store_nil_frame _ _ _ _ Hs2) as (b1' & b2 & Hb1' & Hb2 & Hv2 & _ & Hframe & _).
  rewrite Hb1 in Hb1'. injection Hb1' as <-.
  exists b2. split; [exact Hb2|]. split.
  - rewrite Hframe; [exact Hv1| |].
    + rewrite Hkey. intros Heq. symmetry in Heq. now apply keykind_neq in Heq.
    + rewrite Hkey. intros Heq. apply (f_equal String.length) in Heq.
      rewrite !length_keykind in Heq. lia.
  - rewrite <- Hkey. exact Hv2.
Qed.

Lemma Store_kind_entry_overwritten_witness :
  exists b : gmap string string,
    tx_Bucket (bucketName stored_x1_kind) (db stored_x1_kind) = Some b /\
    bucket_Get (Key tx_a_x_1) b = Some (Value tx_a_x_1) /\
    bucket_Get (keykind (Key tx_a_x_1)) b = Some (Value tx_on_kind_of_x).
Proof.
  apply (Store_kind_entry_overwritten StrictAbsence tx_a_x_1 tx_on_kind_of_x
           opened_store stored_x1 stored_x1_kind).
  - reflexivity.
  - vm_compute. reflexivity.
  - vm_compute. reflexivity.
Defined.

(** ** What holds of every store a program reaches *)

Lemma pairs_only_empty : pairs_only ∅.
Proof. intros key vs Hk. now rewrite lookup_empty in Hk. Qed.

Lemma pairs_only_insert (m : gmap string (list iface)) key v k :
  pairs_only m -> pairs_only (<[key := [IBytes v; IBytes k]]> m).
Proof.
  intros Hm key' vs. destruct (decide (key = key')) as [<-|Hne].
  - rewrite lookup_insert_eq. intros [= <-]. eauto.
  - rewrite lookup_insert_ne by exact Hne. apply Hm.
Qed.

Lemma pairs_only_Add pol key v k (m : gmap string (list iface)) :
  pairs_only m -> pairs_only (coll_Add pol key [IBytes v; IBytes k] m).1.
Proof.
  intros Hm. unfold coll_Add. destruct (m !! key); [destruct pol|]; simpl;
    try exact Hm; now apply pairs_only_insert.
Qed.

Lemma pairs_only_Remove key (m : gmap string (list iface)) :
  pairs_only m -> pairs_only (coll_Remove key m).1.
Proof.
  intros Hm. unfold coll_Remove. destruct (m !! key) eqn:Hk; simpl; [|exact Hm].
  intros key' vs Hl. apply (Hm key' vs).
  destruct (decide (key = key')) as [<-|Hne].
  - now rewrite lookup_delete_eq in Hl.
  - now rewrite lookup_delete_ne in Hl.
Qed.

Lemma pairs_only_loadAll pol (b : gmap string string) l :
  forall m : gmap string (list iface),
    pairs_only m -> pairs_only (fold_left (loadAll_step pol b) l m).
Proof.
  induction l as [|kv l IH]; intros m Hm; simpl; [exact Hm|].
  apply IH. unfold loadAll_step. now apply pairs_only_Add.
Qed.

Lemma pairs_only_tryHash_loop pol ts :
  forall (m : gmap string (list iface)) defers,
    pairs_only m -> pairs_only (tryHash_loop pol ts m defers).1.1.
Proof.
  induction ts as [|t ts IH]; intros m defers Hm; simpl; [exact Hm|].
  pose proof (pairs_only_Add pol (Key t) (Value t) (Kind t) m Hm) as Ha.
  destruct (coll_Add pol (Key t) _ m) as [m' [e|]]; simpl in *; [exact Ha|].
  now apply IH.
Qed.

Lemma pairs_only_run_defers defers :
  forall (m : gmap string (list iface)) mr rerr,
    pairs_only m -> pairs_only (run_defers defers m mr rerr).1.1.
Proof.
  induction defers as [|k defers IH]; intros m mr rerr Hm; simpl; [exact Hm|].
  pose proof (pairs_only_Remove k m Hm) as Hr.
  destruct (coll_Remove k m) as [m' [e|]]; simpl in *; now apply IH.
Qed.

Lemma tryHash_state pol ts c :
  db (tryHash pol ts c).1.1 = db c /\
  bucketName (tryHash pol ts c).1.1 = bucketName c /\
  (pairs_only (coll c) -> pairs_only (coll (tryHash pol ts c).1.1)).
Proof.
  unfold tryHash.
  pose proof (pairs_only_tryHash_loop pol ts (coll c) []) as Hl.
  destruct (tryHash_loop pol ts (coll c) []) as [[m defers] [err|]]; simpl in Hl.
  - pose proof (pairs_only_run_defers defers m None (Some err)) as Hr.
    destruct (run_defers defers m None (Some err)) as [[m' mr] rerr]; simpl in *. auto.
  - pose proof (pairs_only_run_defers defers m (Some (coll_GetRoot m)) None) as Hr.
    destruct (run_defers defers m _ None) as [[m' mr] rerr]; simpl in *. auto.
Qed.

Lemma Store_state pol t c c' err :
  Store pol t c = Return (c', err) ->
  bucketName c' = bucketName c /\
  is_Some (tx_Bucket (bucketName c') (db c')) /\
  (pairs_only (coll c) -> pairs_only (coll c')).
Proof.
  intros Hs. pose proof (Store_coll _ _ _ _ _ Hs) as Hc.
  unfold Store, db_Update, store_tx in Hs.
  destruct (tx_Bucket (bucketName c) (db c)) as [b|] eqn:Hb; [|discriminate].
  assert (Hgoal : forall d', (d' = db c \/ exists b2, d' = <[bucketName c := b2]> (db c)) ->
            is_Some (tx_Bucket (bucketName c) d')).
  { intros d' [->|[b2 ->]]; unfold tx_Bucket in *; [eauto|rewrite lookup_insert_eq; eauto]. }
  split; [|split].
  - destruct (bucket_Put (Key t) (Value t) b) as [b1 [e1|]]; [now inversion Hs|].
    destruct (bucket_Put (keykind (Key t)) (Kind t) b1) as [b2 [e2|]]; now inversion Hs.
  - destruct (bucket_Put (Key t) (Value t) b) as [b1 [e1|]];
      [inversion Hs; subst; simpl; apply Hgoal; auto|].
    destruct (bucket_Put (keykind (Key t)) (Kind t) b1) as [b2 [e2|]];
      inversion Hs; subst; simpl; apply Hgoal; eauto.
  - intros Hm. rewrite Hc. now apply pairs_only_Add.
Qed.

Lemma newCollectionDB_state pol d name c :
  newCollectionDB pol d name = Return c ->
  bucketName c = name /\
  is_Some (tx_Bucket (bucketName c) (db c)) /\
  pairs_only (coll c).
Proof.
  unfold newCollectionDB, db_Update, create_bucket_tx. simpl.
  destruct (tx_CreateBucket name d) as [d' [e|]]; unfold loadAll; simpl;
    (destruct (tx_Bucket name _) as [b|] eqn:Hb; [|discriminate]);
    intros [= <-]; simpl; rewrite Hb;
    (split; [reflexivity|split; [eauto|apply pairs_only_loadAll, pairs_only_empty]]).
Qed.

Lemma reachable_state pol c :
  reachable pol c ->
  is_Some (tx_Bucket (bucketName c) (db c)) /\ pairs_only (coll c).
Proof.
  induction 1 as [d name c Hopen|t c c' err _ [Hb Hm] Hs|ts c _ [Hb Hm]].
  - destruct (newCollectionDB_state _ _ _ _ Hopen) as (_ & Hb & Hm). auto.
  - destruct (Store_state _ _ _ _ _ Hs) as (_ & Hb' & Hm'). auto.
  - destruct (tryHash_state pol ts c) as (Hd & Hn & Hm'). rewrite Hd, Hn. auto.
Qed.

(** X6. Once [newCollectionDB] has returned a store, no call on it panics,
    however many [Store] and [tryHash] calls came before: [GetValueKind]
    returns not-found on a key the collection lacks and the stored pair on one
    it holds, and [Store] returns. *)
Theorem reachable_never_panics pol (c : collectionDB) :
  reachable pol c ->
  (forall key,
     (coll c !! key = None /\ GetValueKind c key = Return ("", "", Some ErrNotFound)) \/
     (exists v k, coll c !! key = Some [IBytes v; IBytes k] /\
                  GetValueKind c key = Return (v, k, None))) /\
  (forall t, exists c' err, Store pol t c = Return (c', err)).
Proof.
  intros Hr. destruct (reachable_state _ _ Hr) as [[b Hb] Hm]. split.
  - intros key. pose proof (GetValueKind_cases c key) as Hc.
    destruct (coll c !! key) as [vs|] eqn:Hk; [right|left; auto].
    destruct (Hm key vs Hk) as (v & k & ->). eauto.
  - intros t. now apply (Store_returns pol t c b).
Qed.

Lemma stored_x1_reachable : reachable StrictAbsence stored_x1.
Proof.
  apply (reach_Store StrictAbsence tx_a_x_1 opened_store stored_x1 None).
  - apply (reach_open StrictAbsence empty_db "omniledger"). vm_compute. reflexivity.
  - vm_compute. reflexivity.
Qed.

Lemma reachable_never_panics_witness :
  (forall key,
     (coll stored_x1 !! key = None /\
      GetValueKind stored_x1 key = Return ("", "", Some ErrNotFound)) \/
     (exists v k, coll stored_x1 !! key = Some [IBytes v; IBytes k] /\
                  GetValueKind stored_x1 key = Return (v, k, None))) /\
  (forall t, exists c' err, Store StrictAbsence t stored_x1 = Return (c', err)).
Proof.
  apply (reachable_never_panics StrictAbsence stored_x1). apply stored_x1_reachable.
Defined.



(** ** Opening a store *)

Lemma length_zero_empty (s : string) : String.length s = 0%nat <-> s = "".
Proof. destruct s; simpl; split; intros Heq; try reflexivity; discriminate. Qed.

Lemma bucket_Cursor_empty : bucket_Cursor ∅ = [].
Proof. unfold bucket_Cursor. rewrite map_to_list_empty. reflexivity. Qed.

(** X7. Opening a database that has no bucket of the given name: a store with an
    empty collection over a new empty bucket, the rest of the database as it
    was; but a panic when the name is blank, for then [CreateBucket] fails,
    its error is not looked at and [loadAll] takes the cursor of a nil
    bucket. *)
Theorem newCollectionDB_without_bucket pol (d : gmap string (gmap string string))
    (name : string) :
  tx_Bucket name d = None ->
  (name <> "" ->
   newCollectionDB pol d name
   = Return {| db := <[name := ∅]> d; bucketName := name; coll := ∅ |}) /\
  (name = "" -> exists msg, newCollectionDB pol d name = Panic msg).
Proof.
  unfold tx_Bucket. intros Hb.
  unfold newCollectionDB, db_Update, create_bucket_tx, tx_CreateBucket. simpl. split.
  - intros Hname. destruct (Nat.eqb (String.length name) 0) eqn:Hlen.
    + apply Nat.eqb_eq, length_zero_empty in Hlen. contradiction.
    + rewrite Hb. unfold loadAll, tx_Bucket. simpl. rewrite lookup_insert_eq.
      rewrite bucket_Cursor_empty. reflexivity.
  - intros ->. simpl. unfold loadAll, tx_Bucket. simpl. rewrite Hb. eauto.
Qed.

Lemma newCollectionDB_without_bucket_witness :
  ("omniledger" <> "" ->
   newCollectionDB StrictAbsence empty_db "omniledger"
   = Return {| db := <["omniledger" := ∅]> empty_db; bucketName := "omniledger";
               coll := ∅ |}) /\
  ("omniledger" = "" ->
   exists msg, newCollectionDB StrictAbsence empty_db "omniledger" = Panic msg).
Proof.
  apply (newCollectionDB_without_bucket StrictAbsence empty_db "omniledger").
  vm_compute. reflexivity.
Defined.

Section Cursor.

Variable pol : AddPolicy.
Variable b : gmap string string.

(** The entry [loadAll] adds for a pair of the bucket. *)
Let loaded (k v : string) : list iface :=
  [IBytes v; IBytes (from_nil (bucket_Get (k ++ "sig") b))].

Lemma loadAll_step_other (m : gmap string (list iface)) kv k :
  k <> kv.1 -> loadAll_step pol b m kv !! k = m !! k.
Proof.
  intros Hne. unfold loadAll_step, coll_Add.
  destruct (m !! kv.1); [destruct pol|]; simpl; try reflexivity;
    now rewrite lookup_insert_ne by congruence.
Qed.

Lemma loadAll_step_fresh (m : gmap string (list iface)) kv :
  m !! kv.1 = None -> loadAll_step pol b m kv !! kv.1 = Some (loaded kv.1 kv.2).
Proof.
  intros Hk. unfold loadAll_step. rewrite coll_Add_absent by exact Hk.
  simpl. apply lookup_insert_eq.
Qed.

Lemma loadAll_fold_other l : forall (m : gmap string (list iface)) k,
  k ∉ l.*1 -> fold_left (loadAll_step pol b) l m !! k = m !! k.
Proof.
  induction l as [|kv l IH]; intros m k Hk; simpl; [reflexivity|].
  rewrite fmap_cons in Hk. apply not_elem_of_cons in Hk as [Hne Hk].
  rewrite IH by exact Hk. now apply loadAll_step_other.
Qed.

Lemma loadAll_fold_entry l : forall (m : gmap string (list iface)) k v,
  NoDup l.*1 -> (forall kv, kv ∈ l -> m !! kv.1 = None) -> (k, v) ∈ l ->
  fold_left (loadAll_step pol b) l m !! k = Some (loaded k v).
Proof.
  induction l as [|kv l IH]; intros m k v Hnd Hfresh Hin; [now apply elem_of_nil in Hin|].
  rewrite fmap_cons in Hnd. apply NoDup_cons in Hnd as [Hkv Hnd]. simpl.
  apply elem_of_cons in Hin as [<-|Hin].
  - rewrite loadAll_fold_other by exact Hkv.
    apply (loadAll_step_fresh m (k, v)). apply Hfresh. now left.
  - apply IH; [exact Hnd| |exact Hin].
    intros kv' Hkv'. rewrite loadAll_step_other.
    + apply Hfresh. now right.
    + intros Heq. apply Hkv. rewrite <- Heq. apply list_elem_of_fmap. eauto.
Qed.

Lemma rehydrated_lookup k :
  fold_left (loadAll_step pol b) (bucket_Cursor b) ∅ !! k
  = loaded k <$> bucket_Get k b.
Proof.
  unfold bucket_Get. destruct (b !! k) as [v|] eqn:Hk; simpl.
  - apply loadAll_fold_entry.
    + unfold bucket_Cursor. rewrite merge_sort_Permutation. apply NoDup_fst_map_to_list.
    + intros kv _. apply lookup_empty.
    + unfold bucket_Cursor. rewrite merge_sort_Permutation. now apply elem_of_map_to_list.
  - rewrite loadAll_fold_other; [apply lookup_empty|].
    unfold bucket_Cursor. rewrite merge_sort_Permutation.
    intros Hin. apply list_elem_of_fmap in Hin as ([k' v] & -> & Hin).
    apply elem_of_map_to_list in Hin. simpl in Hk. congruence.
Qed.

End Cursor.

Lemma newCollectionDB_loaded pol (d : gmap string (gmap string string))
    (name : string) (b : gmap string string) :
  tx_Bucket name d = Some b ->
  exists c,
    newCollectionDB pol d name = Return c /\
    db c = d /\ bucketName c = name /\
    forall k,
      coll c !! k
      = (fun v => [IBytes v; IBytes (from_nil (bucket_Get (k ++ "sig") b))])
          <$> bucket_Get k b.
Proof.
  intros Hb. rewrite (newCollectionDB_existing pol d name b Hb).
  unfold loadAll. simpl. rewrite Hb. eexists. split; [reflexivity|].
  simpl. repeat split. intros k. apply rehydrated_lookup.
Qed.

(** X8. Opening a database that has the bucket: the database is left as it is,
    and the collection gets one entry for every key of the bucket, the kind
    entries [Store] wrote included: the value found under the key, paired
    with what the bucket holds under the key followed by "sig" (nothing, if
    there is no such key). *)
Theorem newCollectionDB_with_bucket pol (d : gmap string (gmap string string))
    (name : string) (b : gmap string string) :
  tx_Bucket name d = Some b ->
  exists c,
    newCollectionDB pol d name = Return c /\
    db c = d /\ bucketName c = name /\
    forall k,
      coll c !! k
      = (fun v => [IBytes v; IBytes (from_nil (bucket_Get (k ++ "sig") b))])
          <$> bucket_Get k b.
Proof. apply newCollectionDB_loaded. Qed.

Lemma newCollectionDB_with_bucket_witness :
  exists c,
    newCollectionDB StrictAbsence (db stored_x1) "omniledger" = Return c /\
    db c = db stored_x1 /\ bucketName c = "omniledger" /\
    forall k,
      coll c !! k
      = (fun v => [IBytes v;
                   IBytes (from_nil (bucket_Get (k ++ "sig")
                                       {["x" := "1"; keykind "x" := "a"]}))])
          <$> bucket_Get k {["x" := "1"; keykind "x" := "a"]}.
Proof.
  apply (newCollectionDB_with_bucket StrictAbsence (db stored_x1) "omniledger"
           {["x" := "1"; keykind "x" := "a"]}).
  vm_compute. reflexivity.
Defined.

(** X9. The value of a stored transaction survives a restart, its kind does
    not: after a [Store] that returned nil, a store opened anew on the same
    database answers [GetValueKind] on the key with the stored value, and for
    the kind with what the bucket holds under the key followed by "sig",
    nothing if the bucket had no such key. *)
Theorem reopened_value_without_kind pol (t : Transaction) (c c' : collectionDB)
    (b : gmap string string) :
  tx_Bucket (bucketName c) (db c) = Some b ->
  Store pol t c = Return (c', None) ->
  exists c2,
    newCollectionDB pol (db c') (bucketName c') = Return c2 /\
    GetValueKind c2 (Key t)
    = Return (Value t, from_nil (bucket_Get (Key t ++ "sig") b), None).
Proof.
  intros Hb Hs.
  destruct (Store_nil_frame _ _ _ _ Hs) as (b0 & b' & Hb0 & Hb' & Hv & _ & Hframe & _).
  rewrite Hb in Hb0. injection Hb0 as <-.
  destruct (newCollectionDB_loaded pol _ _ _ Hb') as (c2 & Hopen & _ & _ & Hcoll).
  exists c2. split; [exact Hopen|]. apply GetValueKind_pair.
  rewrite Hcoll, Hv. simpl. rewrite Hframe; [reflexivity| |].
  - intros Heq. apply (f_equal String.length) in Heq. rewrite length_append in Heq.
    simpl in Heq. lia.
  - intros Heq. apply (f_equal String.length) in Heq.
    rewrite length_append, length_keykind in Heq. simpl in Heq. lia.
Qed.

Lemma reopened_value_without_kind_witness :
  exists c2,
    newCollectionDB StrictAbsence (db stored_x1) (bucketName stored_x1) = Return c2 /\
    GetValueKind c2 (Key tx_a_x_1)
    = Return (Value tx_a_x_1, from_nil (bucket_Get (Key tx_a_x_1 ++ "sig") ∅), None).
Proof.
  apply (reopened_value_without_kind StrictAbsence tx_a_x_1 opened_store stored_x1 ∅).
  - vm_compute. reflexivity.
  - vm_compute. reflexivity.
Defined.

(** ** tryHash on whole batches *)

Lemma fresh_batch_cons t ts (m : gmap string (list iface)) :
  fresh_batch (t :: ts) m <->
  m !! Key t = None /\ fresh_batch ts (<[Key t := [IBytes (Value t); IBytes (Kind t)]]> m).
Proof.
  unfold fresh_batch. change (map Key (t :: ts)) with (Key t :: map Key ts).
  rewrite NoDup_cons, list_elem_of_In. split.
  - intros [[Hnin Hnd] Hfresh]. split; [apply Hfresh; now left|].
    split; [exact Hnd|]. intros t' Hin. rewrite lookup_insert_ne; [apply Hfresh; now right|].
    intros Heq. apply Hnin. rewrite Heq. now apply in_map.
  - intros [Hk [Hnd Hfresh]]. split; [split; [|exact Hnd]|].
    + intros Hin. apply in_map_iff in Hin as (t' & Heq & Hin).
      specialize (Hfresh t' Hin). rewrite Heq, lookup_insert_eq in Hfresh. discriminate.
    + intros t' [<-|Hin]; [exact Hk|].
      specialize (Hfresh t' Hin).
      destruct (decide (Key t = Key t')) as [Heq|Hne].
      * rewrite Heq, lookup_insert_eq in Hfresh. discriminate.
      * now rewrite lookup_insert_ne in Hfresh.
Qed.

Lemma tryHash_loop_strict_cases ts : forall (m : gmap string (list iface)) defers,
  (fresh_batch ts m /\
   tryHash_loop StrictAbsence ts m defers
   = (add_all ts m, rev (map Key ts) ++ defers, None)) \/
  (~ fresh_batch ts m /\
   (tryHash_loop StrictAbsence ts m defers).2 = Some ErrDuplicateKey).
Proof.
  induction ts as [|t ts IH]; intros m defers.
  - left. split; [split; [apply NoDup_nil_2|intros t []]|reflexivity].
  - simpl. destruct (m !! Key t) as [vs|] eqn:Hk.
    + right. rewrite (coll_Add_strict_present _ _ vs) by exact Hk. split; [|reflexivity].
      rewrite fresh_batch_cons. intros [Hnone _]. congruence.
    + rewrite coll_Add_absent by exact Hk.
      destruct (IH (<[Key t := [IBytes (Value t); IBytes (Kind t)]]> m) (Key t :: defers))
        as [[Hf Heq]|[Hnf Herr]].
      * left. split; [now apply fresh_batch_cons|].
        rewrite Heq. unfold add_all. simpl. now rewrite <- app_assoc.
      * right. split; [|exact Herr]. rewrite fresh_batch_cons. tauto.
Qed.

(** X10. Under the strict policy [tryHash] has two outcomes.  On a batch with no
    key twice and no key already stored it returns the root of the collection
    with every pair of the batch put in; on any other batch it returns nil and
    the duplicate-key error. *)
Theorem tryHash_strict_outcomes (ts : list Transaction) (c : collectionDB) :
  (fresh_batch ts (coll c) ->
   tryHash StrictAbsence ts c = (c, Some (MerkleRoot (add_all ts (coll c))), None)) /\
  (~ fresh_batch ts (coll c) ->
   tryHash StrictAbsence ts c = (c, None, Some ErrDuplicateKey)).
Proof.
  pose proof (tryHash_strict_result ts c) as Hres.
  destruct (tryHash_loop_strict_cases ts (coll c) []) as [[Hf Heq]|[Hnf Herr]].
  - rewrite Heq in Hres. split; [now intros _|contradiction].
  - destruct (tryHash_loop StrictAbsence ts (coll c) []) as [[m defers] e];
      simpl in Herr; subst e. split; [contradiction|now intros _].
Qed.

Lemma add_all_perm ts ts' :
  Permutation ts ts' ->
  forall m : gmap string (list iface), NoDup (map Key ts) -> add_all ts m = add_all ts' m.
Proof.
  unfold add_all.
  induction 1 as [|x l l' Hp IH|x y l|l l' l'' Hp1 IH1 Hp2 IH2]; intros m Hnd.
  - reflexivity.
  - change (map Key (x :: l)) with (Key x :: map Key l) in Hnd.
    apply NoDup_cons in Hnd as [_ Hnd]. simpl. now apply IH.
  - change (map Key (y :: x :: l)) with (Key y :: Key x :: map Key l) in Hnd.
    apply NoDup_cons in Hnd as [Hnin _]. apply not_elem_of_cons in Hnin as [Hne _].
    simpl. f_equal. apply insert_insert_ne. congruence.
  - rewrite IH1 by exact Hnd. apply IH2.
    apply (proj1 (NoDup_Permutation_proper _ _ (Permutation_map Key Hp1)) Hnd).
Qed.

Lemma fresh_batch_perm ts ts' (m : gmap string (list iface)) :
  Permutation ts ts' -> fresh_batch ts m -> fresh_batch ts' m.
Proof.
  intros Hp [Hnd Hfresh]. split.
  - apply (proj1 (NoDup_Permutation_proper _ _ (Permutation_map Key Hp)) Hnd).
  - intros t Hin. apply Hfresh. apply (Permutation_in _ (Permutation_sym Hp) Hin).
Qed.

(** X11. Under the strict policy the order of the batch is of no account to
    [tryHash]: the same batch in another order gets the same root, or the
    same error. *)
Theorem tryHash_batch_order (ts ts' : list Transaction) (c : collectionDB) :
  Permutation ts ts' ->
  tryHash StrictAbsence ts' c = tryHash StrictAbsence ts c.
Proof.
  intros Hp.
  pose proof (tryHash_strict_result ts c) as Hres.
  pose proof (tryHash_strict_result ts' c) as Hres'.
  destruct (tryHash_loop_strict_cases ts (coll c) []) as [[Hf Heq]|[Hnf Herr]];
    destruct (tryHash_loop_strict_cases ts' (coll c) []) as [[Hf' Heq']|[Hnf' Herr']].
  - rewrite Heq in Hres. rewrite Heq' in Hres'. rewrite Hres, Hres'.
    now rewrite (add_all_perm ts ts' Hp _ (proj1 Hf)).
  - destruct Hnf'. now apply (fresh_batch_perm ts ts').
  - destruct Hnf. now apply (fresh_batch_perm ts' ts); [apply Permutation_sym|].
  - destruct (tryHash_loop StrictAbsence ts (coll c) []) as [[m defers] e];
      destruct (tryHash_loop StrictAbsence ts' (coll c) []) as [[m' defers'] e'];
      simpl in *; subst. now rewrite Hres, Hres'.
Qed.

Lemma tryHash_batch_order_witness :
  tryHash StrictAbsence [tx_a_y_2; tx_a_x_1] opened_store
  = tryHash StrictAbsence [tx_a_x_1; tx_a_y_2] opened_store.
Proof.
  apply (tryHash_batch_order [tx_a_x_1; tx_a_y_2] [tx_a_y_2; tx_a_x_1] opened_store).
  apply perm_swap.
Defined.

Lemma run_defers_mr defers : forall (m : gmap string (list iface)) mr rerr root,
  (run_defers defers m mr rerr).1.2 = Some root -> mr = Some root.
Proof.
  induction defers as [|k defers IH]; intros m mr rerr root; simpl; [auto|].
  destruct (coll_Remove k m) as [m' [e|]]; intros Hr; apply IH in Hr; [discriminate|exact Hr].
Qed.

Lemma tryHash_loop_fold pol ts : forall (m m' : gmap string (list iface)) defers defers',
  tryHash_loop pol ts m defers = (m', defers', None) ->
  m' = fold_left (fun m t => (coll_Add pol (Key t) [IBytes (Value t); IBytes (Kind t)] m).1)
         ts m.
Proof.
  induction ts as [|t ts IH]; intros m m' defers defers'; simpl.
  - now intros [= <- _].
  - destruct (coll_Add pol (Key t) _ m) as [m1 [e|]]; [discriminate|]. simpl. apply IH.
Qed.

Lemma store_all_coll pol ts : forall c c',
  store_all pol ts c = Return c' ->
  coll c' = fold_left (fun m t => (coll_Add pol (Key t) [IBytes (Value t); IBytes (Kind t)] m).1)
              ts (coll c).
Proof.
  induction ts as [|t ts IH]; intros c c'; simpl.
  - now intros [= <-].
  - destruct (Store pol t c) as [[c1 e]|msg] eqn:Hs; simpl; [|discriminate].
    intros Hrest. rewrite (IH _ _ Hrest). now rewrite (Store_coll _ _ _ _ _ Hs).
Qed.

(** X12. The root [tryHash] returns is the root the store has once the batch is
    stored: calling [Store] on each transaction in turn, whatever the bucket
    makes of the writes, ends with the root hash [tryHash] gave for the
    batch. *)
Theorem tryHash_predicts_Store pol (ts : list Transaction) (c c' : collectionDB)
    (root : Digest) :
  (tryHash pol ts c).1.2 = Some root ->
  store_all pol ts c = Return c' ->
  RootHash c' = root.
Proof.
  intros Ht Hs. unfold RootHash, coll_GetRoot. rewrite (store_all_coll _ _ _ _ Hs).
  unfold tryHash in Ht.
  destruct (tryHash_loop pol ts (coll c) []) as [[m defers] [err|]] eqn:Hl.
  - destruct (run_defers defers m None (Some err)) as [[m' mr] rerr] eqn:Hr. simpl in Ht.
    pose proof (run_defers_mr defers m None (Some err) root) as Hmr.
    rewrite Hr in Hmr. simpl in Hmr. now specialize (Hmr Ht).
  - destruct (run_defers defers m (Some (coll_GetRoot m)) None) as [[m' mr] rerr] eqn:Hr.
    simpl in Ht.
    pose proof (run_defers_mr defers m (Some (coll_GetRoot m)) None root) as Hmr.
    rewrite Hr in Hmr. simpl in Hmr. specialize (Hmr Ht). injection Hmr as <-.
    unfold coll_GetRoot. f_equal. symmetry. apply (tryHash_loop_fold _ _ _ _ _ _ Hl).
Qed.

Lemma tryHash_predicts_Store_witness :
  RootHash stored_x1 = MerkleRoot {["x" := [IBytes "1"; IBytes "a"]]}.
Proof.
  apply (tryHash_predicts_Store StrictAbsence [tx_a_x_1] opened_store stored_x1).
  - vm_compute. reflexivity.
  - vm_compute. reflexivity.
Defined.

Lemma tryHash_strict_outcomes_witness :
  tryHash StrictAbsence [tx_a_x_1; tx_a_y_2] opened_store
  = (opened_store,
     Some (MerkleRoot (add_all [tx_a_x_1; tx_a_y_2] (coll opened_store))), None)
  /\ tryHash StrictAbsence [tx_a_x_1; tx_a_x_2] opened_store
     = (opened_store, None, Some ErrDuplicateKey).
Proof.
  split.
  - apply (proj1 (tryHash_strict_outcomes [tx_a_x_1; tx_a_y_2] opened_store)).
    split; [apply (bool_decide_unpack _); vm_compute; exact I|].
    intros t [<-|[<-|[]]]; vm_compute; reflexivity.
  - apply (proj2 (tryHash_strict_outcomes [tx_a_x_1; tx_a_x_2] opened_store)).
    intros [Hnd _]. revert Hnd. apply (bool_decide_eq_false_1 _). vm_compute. reflexivity.
Defined.

(** * Further properties of the ordering *)

(** ** The salt *)

Lemma xor_ascii_zero_r a : xor_ascii a Ascii.zero = a.
Proof.
  destruct a as [a0 a1 a2 a3 a4 a5 a6 a7]. simpl. now rewrite !xorb_false_r.
Qed.

Lemma xor_ascii_self a : xor_ascii a a = Ascii.zero.
Proof.
  destruct a as [a0 a1 a2 a3 a4 a5 a6 a7]. simpl. now rewrite !xorb_nilpotent.
Qed.

Lemma xor_bytes_zero_r z : xor_bytes z (make_bytes (String.length z)) = z.
Proof.
  induction z as [|c z IH]; simpl; [reflexivity|]. now rewrite xor_ascii_zero_r, IH.
Qed.

Lemma xor_bytes_self a : xor_bytes a a = make_bytes (String.length a).
Proof.
  induction a as [|c a IH]; simpl; [reflexivity|]. now rewrite xor_ascii_self, IH.
Qed.

Lemma xor_bytes_zero_l h :
  String.length h = sha256_Size -> xor_bytes (make_bytes sha256_Size) h = h.
Proof.
  intros Hlen. rewrite xor_bytes_comm by now rewrite length_make_bytes.
  rewrite <- Hlen. apply xor_bytes_zero_r.
Qed.

(** X13. The salt of a batch in pieces: the salt of two batches put together is
    the XOR of their salts; the salt of one serialized transaction is its
    hash; and a serialized transaction that occurs twice drops out of the
    salt. *)
Theorem xorTransactions_pieces (H : Hash) (bs bs' : list string) (b : string) :
  xorTransactions H (bs ++ bs')
    = xor_bytes (xorTransactions H bs) (xorTransactions H bs') /\
  xorTransactions H [b] = Sum256 H b /\
  xorTransactions H (b :: b :: bs) = xorTransactions H bs.
Proof.
  assert (Hone : xorTransactions H [b] = Sum256 H b).
  { unfold xorTransactions. cbn [fold_left]. apply xor_bytes_zero_l, Sum256_length. }
  assert (Happ : forall l l', xorTransactions H (l ++ l')
                   = xor_bytes (xorTransactions H l) (xorTransactions H l')).
  { intros l l'. unfold xorTransactions at 1. rewrite fold_left_app.
    fold (xorTransactions H l).
    rewrite <- (xor_bytes_zero_l (xorTransactions H l)) at 1
      by apply length_xorTransactions.
    rewrite fold_xor_pull. fold (xorTransactions H l').
    apply xor_bytes_comm. now rewrite !length_xorTransactions. }
  split; [apply Happ|]. split; [exact Hone|].
  change (b :: b :: bs) with ([b; b] ++ bs). rewrite Happ.
  assert (Htwo : xorTransactions H [b; b] = make_bytes sha256_Size).
  { change [b; b] with ([b] ++ [b]). rewrite Happ, Hone, xor_bytes_self.
    now rewrite Sum256_length. }
  rewrite Htwo. apply xor_bytes_zero_l, length_xorTransactions.
Qed.

(** ** Nothing lost, nothing added *)

Section RoundTrip.

Variable H : Hash.
Variable C : Codec.

(** A transaction and the bytes it travels as. *)
Let travels (t : Transaction) (b : string) : Prop :=
  Marshal C t = Ok b /\ Unmarshal C b = Ok (MsgTransaction t).

Lemma marshal_all_travels ts :
  round_trips C ts -> exists bs, marshal_all C ts = Ok bs /\ Forall2 travels ts bs.
Proof.
  induction ts as [|t ts IH]; intros Hrt.
  - exists []. split; [reflexivity|constructor].
  - destruct (Hrt t (or_introl eq_refl)) as (b & Hm & Hu).
    destruct IH as (bs & Hms & Hall); [intros t' Hin; apply Hrt; now right|].
    exists (b :: bs). simpl. rewrite Hm, Hms. split; [reflexivity|].
    constructor; [split; assumption|exact Hall].
Qed.

Lemma travels_marshal_all ts bs : Forall2 travels ts bs -> marshal_all C ts = Ok bs.
Proof.
  induction 1 as [|t b ts bs [Hm _] _ IH]; simpl; [reflexivity|]. now rewrite Hm, IH.
Qed.

Lemma travels_unmarshal_all ts bs : Forall2 travels ts bs -> unmarshal_all C bs = Ok ts.
Proof.
  induction 1 as [|t b ts bs [_ Hu] _ IH]; simpl; [reflexivity|]. now rewrite Hu, IH.
Qed.

Lemma travels_perm bs bs' :
  Permutation bs bs' ->
  forall ts, Forall2 travels ts bs ->
    exists ts', Permutation ts ts' /\ Forall2 travels ts' bs'.
Proof.
  induction 1 as [|b l l' _ IH|x y l|l l' l'' _ IH1 _ IH2]; intros ts Hall.
  - exists ts. split; [reflexivity|exact Hall].
  - inversion Hall as [|t b0 ts0 l0 Ht Hrest]; subst.
    destruct (IH ts0 Hrest) as (ts' & Hp & Hall').
    exists (t :: ts'). split; [now apply perm_skip|]. constructor; [exact Ht|exact Hall'].
  - inversion Hall as [|t1 b1 ts1 l1 Ht1 Hrest]; subst.
    inversion Hrest as [|t2 b2 ts2 l2 Ht2 Hrest2]; subst.
    exists (t2 :: t1 :: ts2). split; [apply perm_swap|].
    constructor; [exact Ht2|]. constructor; [exact Ht1|exact Hrest2].
  - destruct (IH1 ts Hall) as (ts' & Hp & Hall').
    destruct (IH2 ts' Hall') as (ts'' & Hp' & Hall'').
    exists ts''. split; [now transitivity ts'|exact Hall''].
Qed.

Lemma sortTransactions_travels (S : Sorter) ts :
  round_trips C ts ->
  exists bs out,
    marshal_all C ts = Ok bs /\
    Permutation ts out /\
    Forall2 travels out (sortWithSalt H S bs (xorTransactions H bs)) /\
    sortTransactions H S C ts = (out, None).
Proof.
  intros Hrt. destruct (marshal_all_travels ts Hrt) as (bs & Hm & Hall).
  destruct (travels_perm bs (sortWithSalt H S bs (xorTransactions H bs))
              (Permutation_sym (sort_Slice_perm S _ bs)) ts Hall) as (out & Hp & Hall').
  exists bs, out. repeat split; try assumption.
  unfold sortTransactions. rewrite Hm. simpl.
  now rewrite (travels_unmarshal_all _ _ Hall').
Qed.

End RoundTrip.

(** X14. With a codec that gives every transaction of the batch back,
    [sortTransactions] returns nil and the slice afterwards is a
    rearrangement of the slice before: no transaction is lost, added or
    changed. *)
Theorem sortTransactions_rearranges (H : Hash) (S : Sorter) (C : Codec)
    (ts : list Transaction) :
  round_trips C ts ->
  exists out, sortTransactions H S C ts = (out, None) /\ Permutation ts out.
Proof.
  intros Hrt. destruct (sortTransactions_travels H C S ts Hrt) as (bs & out & _ & Hp & _ & Hs).
  eauto.
Qed.

(** X15. Sorting what is sorted changes nothing: with such a codec, and no two
    different serialized transactions sharing a salted hash, a second
    [sortTransactions] on the result of a first leaves it as it is. *)
Theorem sortTransactions_twice (H : Hash) (S S' : Sorter) (C : Codec)
    (ts out : list Transaction) :
  round_trips C ts ->
  (forall bs, marshal_all C ts = Ok bs ->
     collision_free H (xorTransactions H bs) bs = true) ->
  sortTransactions H S C ts = (out, None) ->
  sortTransactions H S' C out = (out, None).
Proof.
  intros Hrt Hcf Hs.
  destruct (sortTransactions_travels H C S ts Hrt) as (bs & out' & Hm & Hp & Hall & Hs').
  rewrite Hs in Hs'. injection Hs' as <-.
  set (sorted := sortWithSalt H S bs (xorTransactions H bs)) in *.
  assert (Hperm : Permutation bs sorted)
    by (apply Permutation_sym, sort_Slice_perm).
  unfold sortTransactions. rewrite (travels_marshal_all C _ _ Hall).
  rewrite <- (xorTransactions_perm H bs sorted Hperm).
  rewrite <- (sortWithSalt_unique H S S' _ bs sorted Hperm (Hcf bs Hm)).
  fold sorted. now rewrite (travels_unmarshal_all C _ _ Hall).
Qed.

Lemma round_trips_three : round_trips demo_codec [T3; T1; T2].
Proof.
  intros t [<-|[<-|[<-|[]]]]; eexists; split; vm_compute; reflexivity.
Qed.

Lemma sortTransactions_rearranges_witness :
  exists out,
    sortTransactions tail_hash insertion_sorter demo_codec [T3; T1; T2] = (out, None) /\
    Permutation [T3; T1; T2] out.
Proof.
  apply (sortTransactions_rearranges tail_hash insertion_sorter demo_codec [T3; T1; T2]).
  apply round_trips_three.
Defined.

Lemma sortTransactions_twice_witness :
  sortTransactions tail_hash insertion_sorter demo_codec [T1; T2; T3] = ([T1; T2; T3], None).
Proof.
  apply (sortTransactions_twice tail_hash insertion_sorter insertion_sorter demo_codec
           [T3; T1; T2] [T1; T2; T3]).
  - apply round_trips_three.
  - intros bs Hm. vm_compute in Hm. inversion Hm; subst. vm_compute. reflexivity.
  - vm_compute. reflexivity.
Defined.

(** X16. The error of a batch that does not marshal is the error of the first
    transaction, in the order of the slice, that does not: [sortTransactions]
    returns it and leaves the slice as it was. *)
Theorem sortTransactions_first_marshal_error (H : Hash) (S : Sorter) (C : Codec)
    (pre post : list Transaction) (t : Transaction) (e : error) :
  (forall t', In t' pre -> exists b, Marshal C t' = Ok b) ->
  Marshal C t = Err e ->
  sortTransactions H S C (pre ++ t :: post) = (pre ++ t :: post, Some e).
Proof.
  intros Hpre Ht. unfold sortTransactions.
  assert (Hm : marshal_all C (pre ++ t :: post) = Err e).
  { induction pre as [|t0 pre IH]; simpl; [now rewrite Ht|].
    destruct (Hpre t0 (or_introl eq_refl)) as [b ->].
    rewrite IH; [reflexivity|]. intros t' Hin. apply Hpre. now right. }
  now rewrite Hm.
Qed.

Lemma sortTransactions_first_marshal_error_witness :
  sortTransactions tail_hash insertion_sorter demo_codec ([T2] ++ tx_blank_key :: [T1])
  = ([T2] ++ tx_blank_key :: [T1], Some (network_error "cannot marshal")).
Proof.
  apply (sortTransactions_first_marshal_error tail_hash insertion_sorter demo_codec
           [T2] [T1] tx_blank_key (network_error "cannot marshal")).
  - intros t' [<-|[]]. eexists. vm_compute. reflexivity.
  - vm_compute. reflexivity.
Defined.

(** ** Action *)

(** X17. [Action.String] tells the three actions apart, and takes every other
    [int], the zero value of an [Action] among them, for an invalid action. *)
Theorem Action_String_names :
  (forall a b : Action,
     Action_String (Action_value a) = Action_String (Action_value b) -> a = b) /\
  (forall z : Z,
     Action_String z = "invalid action" <-> forall a : Action, Action_value a <> z) /\
  Action_String 0 = "invalid action".
Proof.
  split; [|split].
  - intros [] []; vm_compute; intros Heq; try reflexivity; discriminate.
  - intros z. unfold Action_String. simpl. split.
    + intros Hs [] <-; vm_compute in Hs; discriminate.
    + intros Hne.
      destruct (Z.eqb_spec z 1) as [->|_]; [now destruct (Hne Create)|].
      destruct (Z.eqb_spec z 2) as [->|_]; [now destruct (Hne Update)|].
      destruct (Z.eqb_spec z 3) as [->|_]; [now destruct (Hne Remove)|].
      reflexivity.
  - reflexivity.
Qed.

(** * The event log client: makeTx *)

Section MakeTxFacts.

Variable E : EventLogEnv.

Lemma after_draws_next n (r : Rand E) :
  after_draws E n (GenNonce E r).2 = after_draws E (S n) r.
Proof. induction n as [|n IH]; simpl; [reflexivity|]. now rewrite IH. Qed.

Lemma make_instructions_ok msgs : forall i len darcID nonce sigs (r r' : Rand E) instrs,
  make_instructions E msgs i len darcID nonce sigs r = (Ok instrs, r') ->
  length instrs = length msgs /\
  r' = after_draws E (length msgs) r /\
  forall k instr, instrs !! k = Some instr ->
    Index instr = Z.of_nat (i + k) /\
    Length instr = Z.of_nat len /\
    Nonce instr = nonce /\
    DarcID (InstrObjectID instr) = darcID /\
    InstanceID (InstrObjectID instr) = (GenNonce E (after_draws E k r)).1 /\
    InstrSignatures instr = sigs /\
    exists msg buf,
      msgs !! k = Some msg /\ protobuf_Encode E msg = Ok buf /\
      InstrSpawn instr
      = Some {| Args := [{| Name := "event"; ArgValue := buf |}];
                ContractID := contractName E |}.
Proof.
  induction msgs as [|msg msgs IH]; intros i len darcID nonce sigs r r' instrs; simpl.
  - intros [= <- <-]. split; [reflexivity|]. split; [reflexivity|].
    intros k instr Hk. now rewrite lookup_nil in Hk.
  - destruct (protobuf_Encode E msg) as [buf|err] eqn:Henc; [|discriminate].
    destruct (GenNonce E r) as [instanceID r1] eqn:Hgen.
    destruct (make_instructions E msgs (S i) len darcID nonce sigs r1)
      as [[rest|err] r2] eqn:Hrest; [|discriminate].
    intros [= <- <-]. destruct (IH _ _ _ _ _ _ _ _ Hrest) as (Hlen & Hr & Hall).
    split; [simpl; now rewrite Hlen|]. split.
    { rewrite Hr. replace r1 with (GenNonce E r).2 by now rewrite Hgen.
      apply after_draws_next. }
    intros [|k] instr Hk; simpl in Hk.
    + injection Hk as <-. simpl. rewrite Hgen, Nat.add_0_r.
      repeat (split; [reflexivity|]). exists msg, buf. auto.
    + destruct (Hall k instr Hk) as (Hi & Hl & Hn & Hd & Hid & Hs & Hm).
      replace (i + S k)%nat with (S i + k)%nat by lia.
      repeat split; try assumption.
      rewrite Hid. replace r1 with (GenNonce E r).2 by now rewrite Hgen.
      now rewrite after_draws_next.
Qed.

Lemma sign_instruction_ok signers instr : forall sigs,
  sign_instruction E signers instr = Ok sigs ->
  length sigs = length signers /\
  forall j sg, sigs !! j = Some sg ->
    exists signer dr,
      signers !! j = Some signer /\
      ToDarcRequest E instr = Ok dr /\
      Signer sg = Signer_Identity E signer /\
      Signer_Sign E signer (Request_Hash E dr) = Ok (SignatureBytes sg).
Proof.
  induction signers as [|signer signers IH]; intros sigs; simpl.
  - intros [= <-]. split; [reflexivity|]. intros j sg Hj. now rewrite lookup_nil in Hj.
  - destruct (ToDarcRequest E instr) as [dr|err] eqn:Hdr; [|discriminate].
    destruct (Signer_Sign E signer (Request_Hash E dr)) as [sig|err] eqn:Hsig; [|discriminate].
    destruct (sign_instruction E signers instr) as [rest|err]; [|discriminate].
    intros [= <-]. destruct (IH rest eq_refl) as [Hlen Hall].
    split; [simpl; now rewrite Hlen|].
    intros [|j] sg Hj; simpl in Hj.
    + injection Hj as <-. exists signer, dr. simpl. auto.
    + destruct (Hall j sg Hj) as (s & dr' & Hs & Hdr' & Hid & Hsg).
      exists s, dr'. auto.
Qed.

Lemma sign_instructions_ok signers instrs : forall signed,
  sign_instructions E signers instrs = Ok signed ->
  length signed = length instrs /\
  forall k s, signed !! k = Some s ->
    exists instr sigs,
      instrs !! k = Some instr /\
      sign_instruction E signers instr = Ok sigs /\
      s = set_Signatures instr sigs.
Proof.
  induction instrs as [|instr instrs IH]; intros signed; simpl.
  - intros [= <-]. split; [reflexivity|]. intros k s Hk. now rewrite lookup_nil in Hk.
  - destruct (sign_instruction E signers instr) as [sigs|err] eqn:Hsig; [|discriminate].
    destruct (sign_instructions E signers instrs) as [rest|err]; [|discriminate].
    intros [= <-]. destruct (IH rest eq_refl) as [Hlen Hall].
    split; [simpl; now rewrite Hlen|].
    intros [|k] s Hk; simpl in Hk.
    + injection Hk as <-. exists instr, sigs. auto.
    + destruct (Hall k s Hk) as (i0 & s0 & Hi & Hs & Heq). exists i0, s0. auto.
Qed.

Lemma makeTx_inv msgs darcID signers (r r' : Rand E) tx :
  makeTx E msgs darcID signers r = (Ok tx, r') ->
  exists instrs,
    make_instructions E msgs 0 (length msgs) darcID (GenNonce E r).1
      (identity_sigs E signers) (GenNonce E r).2 = (Ok instrs, r') /\
    sign_instructions E signers instrs = Ok (Instructions tx).
Proof.
  unfold makeTx. destruct (GenNonce E r) as [nonce r1]. simpl.
  destruct (make_instructions E msgs 0 _ darcID nonce _ r1) as [[instrs|err] r2];
    [|discriminate].
  destruct (sign_instructions E signers instrs) as [signed|err] eqn:Hsign; [|discriminate].
  intros [= <- <-]. exists instrs. auto.
Qed.

End MakeTxFacts.

(** X18. A transaction [makeTx] returns has one instruction per event, in the
    order of the events: the instruction at [i] has index [i], the number of
    events for its length, the nonce drawn first for its nonce (the same in
    all of them), the given darc id, and spawns the package's contract with
    the one argument "event", the protobuf encoding of event [i]. *)
Theorem makeTx_instructions (E : EventLogEnv) (msgs : list (Event E)) (darcID : string)
    (signers : list (darc_Signer E)) (r r' : Rand E) (tx : ClientTransaction) :
  makeTx E msgs darcID signers r = (Ok tx, r') ->
  length (Instructions tx) = length msgs /\
  forall i instr, Instructions tx !! i = Some instr ->
    Index instr = Z.of_nat i /\
    Length instr = Z.of_nat (length msgs) /\
    Nonce instr = (GenNonce E r).1 /\
    DarcID (InstrObjectID instr) = darcID /\
    exists msg buf,
      msgs !! i = Some msg /\ protobuf_Encode E msg = Ok buf /\
      InstrSpawn instr
      = Some {| Args := [{| Name := "event"; ArgValue := buf |}];
                ContractID := contractName E |}.
Proof.
  intros Hm. destruct (makeTx_inv E _ _ _ _ _ _ Hm) as (instrs & Hmake & Hsign).
  destruct (make_instructions_ok E _ _ _ _ _ _ _ _ _ Hmake) as (Hlen & _ & Hall).
  destruct (sign_instructions_ok E _ _ _ Hsign) as (Hlen' & Hall').
  split; [congruence|].
  intros i instr Hi. destruct (Hall' i instr Hi) as (i0 & sigs & Hi0 & _ & ->).
  destruct (Hall i i0 Hi0) as (Hidx & Hl & Hn & Hd & _ & _ & Hmsg). simpl. auto.
Qed.

(** X19. The nonces of [makeTx]: it draws one nonce more than there are events,
    the first for the nonce all instructions share, then one per instruction,
    in order, for its instance id. *)
Theorem makeTx_nonces (E : EventLogEnv) (msgs : list (Event E)) (darcID : string)
    (signers : list (darc_Signer E)) (r r' : Rand E) (tx : ClientTransaction) :
  makeTx E msgs darcID signers r = (Ok tx, r') ->
  r' = after_draws E (S (length msgs)) r /\
  forall i instr, Instructions tx !! i = Some instr ->
    Nonce instr = (GenNonce E r).1 /\
    InstanceID (InstrObjectID instr) = (GenNonce E (after_draws E (S i) r)).1.
Proof.
  intros Hm. destruct (makeTx_inv E _ _ _ _ _ _ Hm) as (instrs & Hmake & Hsign).
  destruct (make_instructions_ok E _ _ _ _ _ _ _ _ _ Hmake) as (_ & Hr & Hall).
  destruct (sign_instructions_ok E _ _ _ Hsign) as (_ & Hall').
  split; [now rewrite Hr, after_draws_next|].
  intros i instr Hi. destruct (Hall' i instr Hi) as (i0 & sigs & Hi0 & _ & ->).
  destruct (Hall i i0 Hi0) as (_ & _ & Hn & _ & Hid & _). simpl.
  split; [exact Hn|]. now rewrite Hid, after_draws_next.
Qed.

(** X20. The signatures of a transaction [makeTx] returns: every instruction has
    one signature per signer, in the order of the signers; signature [j]
    names the identity of signer [j] and is that signer's signature on the
    hash of the darc request of the instruction taken with the identities in
    place and no signature bytes yet. *)
Theorem makeTx_signatures (E : EventLogEnv) (msgs : list (Event E)) (darcID : string)
    (signers : list (darc_Signer E)) (r r' : Rand E) (tx : ClientTransaction) :
  makeTx E msgs darcID signers r = (Ok tx, r') ->
  forall i instr, Instructions tx !! i = Some instr ->
    length (InstrSignatures instr) = length signers /\
    forall j sg, InstrSignatures instr !! j = Some sg ->
      exists signer dr,
        signers !! j = Some signer /\
        Signer sg = Signer_Identity E signer /\
        ToDarcRequest E (set_Signatures instr (identity_sigs E signers)) = Ok dr /\
        Signer_Sign E signer (Request_Hash E dr) = Ok (SignatureBytes sg).
Proof.
  intros Hm i instr Hi.
  destruct (makeTx_inv E _ _ _ _ _ _ Hm) as (instrs & Hmake & Hsign).
  destruct (make_instructions_ok E _ _ _ _ _ _ _ _ _ Hmake) as (_ & _ & Hall).
  destruct (sign_instructions_ok E _ _ _ Hsign) as (_ & Hall').
  destruct (Hall' i instr Hi) as (i0 & sigs & Hi0 & Hs & ->).
  destruct (Hall i i0 Hi0) as (_ & _ & _ & _ & _ & Hsigs & _).
  destruct (sign_instruction_ok E _ _ _ Hs) as (Hlen & Hj).
  assert (Hback : set_Signatures (set_Signatures i0 sigs) (identity_sigs E signers) = i0).
  { destruct i0. simpl in Hsigs. subst. reflexivity. }
  rewrite Hback. simpl. split; [exact Hlen|].
  intros j sg Hsg. destruct (Hj j sg Hsg) as (signer & dr & H1 & H2 & H3 & H4).
  exists signer, dr. auto.
Qed.

(** X21. An event that does not encode ends [makeTx]: the error returned is the
    encoding error of the first such event, whatever the signers. *)
Theorem makeTx_encode_error (E : EventLogEnv) (pre post : list (Event E)) (msg : Event E)
    (err : error) (darcID : string) (signers : list (darc_Signer E)) (r : Rand E) :
  (forall m, In m pre -> exists buf, protobuf_Encode E m = Ok buf) ->
  protobuf_Encode E msg = Err err ->
  (makeTx E (pre ++ msg :: post) darcID signers r).1 = Err err.
Proof.
  intros Hpre Herr. unfold makeTx. destruct (GenNonce E r) as [nonce r1].
  assert (Hm : forall i len sigs r0,
            (make_instructions E (pre ++ msg :: post) i len darcID nonce sigs r0).1 = Err err).
  { induction pre as [|m pre IH]; intros i len sigs r0; simpl.
    - now rewrite Herr.
    - destruct (Hpre m (or_introl eq_refl)) as [buf ->].
      destruct (GenNonce E r0) as [id r2].
      specialize (IH (fun m' Hin => Hpre m' (or_intror Hin)) (S i) len sigs r2).
      destruct (make_instructions E (pre ++ msg :: post) (S i) len darcID nonce sigs r2)
        as [[l|e] r3]; simpl in IH; [discriminate|]. simpl. exact IH. }
  specialize (Hm 0%nat (length (pre ++ msg :: post)) (identity_sigs E signers) r1).
  destruct (make_instructions E _ 0 _ darcID nonce _ r1) as [[l|e] r2]; simpl in Hm;
    [discriminate|]. simpl. now injection Hm as ->.
Qed.

(** X22. With no signer, [makeTx] asks for no darc request and no signature: it
    returns a transaction as soon as every event encodes, and no instruction
    of it carries a signature. *)
Theorem makeTx_without_signers (E : EventLogEnv) (msgs : list (Event E)) (darcID : string)
    (r : Rand E) :
  (forall m, In m msgs -> exists buf, protobuf_Encode E m = Ok buf) ->
  exists tx r',
    makeTx E msgs darcID [] r = (Ok tx, r') /\
    length (Instructions tx) = length msgs /\
    forall instr, In instr (Instructions tx) -> InstrSignatures instr = [].
Proof.
  intros Henc. unfold makeTx. destruct (GenNonce E r) as [nonce r1]. simpl.
  assert (Hm : forall i len r0, exists instrs r2,
            make_instructions E msgs i len darcID nonce [] r0 = (Ok instrs, r2)).
  { induction msgs as [|m msgs IH]; intros i len r0; simpl; [eauto|].
    destruct (Henc m (or_introl eq_refl)) as [buf ->].
    destruct (GenNonce E r0) as [id r2].
    destruct (IH (fun m' Hin => Henc m' (or_intror Hin)) (S i) len r2) as (l & r3 & ->).
    eauto. }
  destruct (Hm 0%nat (length msgs) r1) as (instrs & r2 & Hmake). rewrite Hmake.
  destruct (make_instructions_ok E _ _ _ _ _ _ _ _ _ Hmake) as (Hlen & _ & _).
  assert (Hs : forall l, exists signed,
            sign_instructions E [] l = Ok signed /\ length signed = length l /\
            forall instr, In instr signed -> InstrSignatures instr = []).
  { induction l as [|x l IH]; simpl.
    - exists []. split; [reflexivity|]. split; [reflexivity|]. intros instr [].
    - destruct IH as (signed & -> & Hl & Hall). eexists. split; [reflexivity|].
      split; [simpl; now rewrite Hl|]. intros instr [<-|Hin]; [reflexivity|now apply Hall]. }
  destruct (Hs instrs) as (signed & -> & Hl & Hall).
  exists {| Instructions := signed |}, r2. simpl. split; [reflexivity|].
  split; [congruence|exact Hall].
Qed.

Lemma makeTx_demo :
  makeTx demo_env ["e1"; "e2"] "darc" ["alice"; "bob"] 1%nat = (Ok demo_tx, 4%nat).
Proof. vm_compute. reflexivity. Qed.

Lemma makeTx_instructions_witness :
  length (Instructions demo_tx) = length ["e1"; "e2"] /\
  forall i instr, Instructions demo_tx !! i = Some instr ->
    Index instr = Z.of_nat i /\
    Length instr = Z.of_nat (length ["e1"; "e2"]) /\
    Nonce instr = (GenNonce demo_env 1%nat).1 /\
    DarcID (InstrObjectID instr) = "darc" /\
    exists msg buf,
      ["e1"; "e2"] !! i = Some msg /\ protobuf_Encode demo_env msg = Ok buf /\
      InstrSpawn instr
      = Some {| Args := [{| Name := "event"; ArgValue := buf |}];
                ContractID := contractName demo_env |}.
Proof.
  apply (makeTx_instructions demo_env ["e1"; "e2"] "darc" ["alice"; "bob"] 1%nat 4%nat demo_tx).
  vm_compute. reflexivity.
Defined.

Lemma makeTx_nonces_witness :
  4%nat = after_draws demo_env (S (length ["e1"; "e2"])) 1%nat /\
  forall i instr, Instructions demo_tx !! i = Some instr ->
    Nonce instr = (GenNonce demo_env 1%nat).1 /\
    InstanceID (InstrObjectID instr)
    = (GenNonce demo_env (after_draws demo_env (S i) 1%nat)).1.
Proof.
  apply (makeTx_nonces demo_env ["e1"; "e2"] "darc" ["alice"; "bob"] 1%nat 4%nat demo_tx).
  vm_compute. reflexivity.
Defined.

Lemma makeTx_signatures_witness :
  makeTx demo_env ["e1"; "e2"] "darc" ["alice"; "bob"] 1%nat = (Ok demo_tx, 4%nat) /\
  forall i instr, Instructions demo_tx !! i = Some instr ->
    length (InstrSignatures instr) = length ["alice"; "bob"] /\
    forall j sg, InstrSignatures instr !! j = Some sg ->
      exists signer dr,
        ["alice"; "bob"] !! j = Some signer /\
        Signer sg = Signer_Identity demo_env signer /\
        ToDarcRequest demo_env
          (set_Signatures instr (identity_sigs demo_env ["alice"; "bob"])) = Ok dr /\
        Signer_Sign demo_env signer (Request_Hash demo_env dr) = Ok (SignatureBytes sg).
Proof.
  split; [vm_compute; reflexivity|].
  apply (makeTx_signatures demo_env ["e1"; "e2"] "darc" ["alice"; "bob"] 1%nat 4%nat demo_tx).
  vm_compute. reflexivity.
Defined.

Lemma makeTx_encode_error_witness :
  (makeTx demo_env (["e1"] ++ "" :: ["e2"]) "darc" ["alice"; "bob"] 1%nat).1
  = Err (network_error "cannot encode").
Proof.
  apply (makeTx_encode_error demo_env ["e1"] ["e2"] "" (network_error "cannot encode")
           "darc" ["alice"; "bob"] 1%nat).
  - intros m [<-|[]]. eexists. vm_compute. reflexivity.
  - vm_compute. reflexivity.
Defined.

Lemma makeTx_without_signers_witness :
  exists tx r',
    makeTx demo_env ["e1"; "e2"] "darc" [] 1%nat = (Ok tx, r') /\
    length (Instructions tx) = length ["e1"; "e2"] /\
    forall instr, In instr (Instructions tx) -> InstrSignatures instr = [].
Proof.
  apply (makeTx_without_signers demo_env ["e1"; "e2"] "darc" 1%nat).
  intros m [<-|[<-|[]]]; eexists; vm_compute; reflexivity.
Defined.
